(** * A shallow embedding of the rb ring buffers (RingBase, RingBuffer, RingQueue)

    The C++ sources are [Impl/RingBase.hpp], [Impl/RingBuffer.hpp] and
    [Impl/RingQueue.hpp].  Cursors are [size_t] values, modelled as integers
    with the 64-bit wrap-around of [fetch_add] written out; the storage array
    [buff_] is a list indexed through the mask; [std::optional] is [option];
    a failing [assert] (debug build) is an outcome of its own. *)

From stdpp Require Import base numbers list list_numbers option.
From Stdlib Require Import ZArith Lia.

Open Scope Z_scope.

(** ** Machine integers *)

Definition SIZE_BITS : Z := 64.
Definition SIZE_MOD : Z := 2 ^ SIZE_BITS.

(** Arithmetic on [size_t] is modulo [2 ^ 64]. *)
Definition wrap (x : Z) : Z := x mod SIZE_MOD.

Definition is_size_t (x : Z) : Prop := 0 <= x < SIZE_MOD.

(** The examples use [int] elements; [int{}] is 0. *)
#[global] Instance int_inhabited : Inhabited Z | 0 := populate 0.

(** The two atomics of a ring; used to name the target of a notification. *)
Inductive cursor : Set := Head | Tail.

(** ** RingBase *)

Module RingBase.

(** [buff_], [head_] (write cursor) and [tail_] (read cursor). *)
Record ring (T : Type) : Type := Ring {
  buff_ : list T;
  head_ : Z;
  tail_ : Z
}.
Arguments Ring {T} _ _ _.
Arguments buff_ {T} _.
Arguments head_ {T} _.
Arguments tail_ {T} _.

(** [constexpr static bool can_mod_opt_ = (size_ & (size_ - 1)) == 0] *)
Definition can_mod_opt_ (size_ : Z) : bool := Z.land size_ (size_ - 1) =? 0.

(** [constexpr static size_t size_mask_ = size_ - 1] *)
Definition size_mask_ (size_ : Z) : Z := size_ - 1.

(** The two [static_assert]s on the capacity, and [size_] being a
    [size_t] template argument. *)
Definition capacity_ok (size_ : Z) : Prop :=
  can_mod_opt_ size_ = true /\ 1 < size_ /\ size_ < SIZE_MOD.

Section Base.
Context {T : Type} `{!Inhabited T} (size_ : Z).

(** [buff_[i]]; every index the code uses is masked, hence in range. *)
Definition slot (b : list T) (i : Z) : T := b !!! Z.to_nat i.

(** [buff_[i] = v] *)
Definition store (b : list T) (i : Z) (v : T) : list T := <[Z.to_nat i := v]> b.

(** [T buff_[size_]{}; head_{0}; tail_{0}] *)
Definition init : ring T :=
  Ring (replicate (Z.to_nat size_) inhabitant) 0 0.

Definition is_full (s : ring T) : bool :=
  let lhead := Z.land (wrap (head_ s + 1)) (size_mask_ size_) in
  let ltail := Z.land (tail_ s) (size_mask_ size_) in
  lhead =? ltail.

Definition is_empty (s : ring T) : bool :=
  let lhead := Z.land (head_ s) (size_mask_ size_) in
  let ltail := Z.land (tail_ s) (size_mask_ size_) in
  lhead =? ltail.
End Base.

End RingBase.
Export RingBase.

(** ** Operations as state transformers

    A member function that runs without parking is a function from the ring
    to an outcome: its return value, the ring it leaves and the notifications
    it issued, or a failed [assert]. *)

Inductive outcome (T A : Type) : Type :=
| Done (a : A) (s : ring T) (woken : list cursor)
| AssertFailed.
Arguments Done {T A} _ _ _.
Arguments AssertFailed {T A}.

Definition M (T A : Type) : Type := ring T -> outcome T A.

Definition ret {T A} (a : A) : M T A := fun s => Done a s [].

Definition bind {T A B} (m : M T A) (k : A -> M T B) : M T B :=
  fun s =>
    match m s with
    | Done a s1 w1 =>
        match k a s1 with
        | Done b s2 w2 => Done b s2 (w1 ++ w2)
        | AssertFailed => AssertFailed
        end
    | AssertFailed => AssertFailed
    end.

Notation "x <- m ;; k" := (bind m (fun x => k))
  (at level 100, m at next level, right associativity).
Notation "m ;;; k" := (bind m (fun _ => k))
  (at level 100, right associativity).

(** A [const] query of the ring. *)
Definition query {T A} (f : ring T -> A) : M T A := fun s => Done (f s) s [].

(** [head_.load(...)], [tail_.load(...)] *)
Definition load_head {T} : M T Z := query head_.
Definition load_tail {T} : M T Z := query tail_.

(** [head_.fetch_add(1, ...)], [tail_.fetch_add(1, ...)] *)
Definition fetch_add_head {T} : M T unit :=
  fun s => Done tt (Ring (buff_ s) (wrap (head_ s + 1)) (tail_ s)) [].
Definition fetch_add_tail {T} : M T unit :=
  fun s => Done tt (Ring (buff_ s) (head_ s) (wrap (tail_ s + 1))) [].

(** [buff_[i] = v] and [buff_[i]] *)
Definition write_slot {T} (i : Z) (v : T) : M T unit :=
  fun s => Done tt (Ring (store (buff_ s) i v) (head_ s) (tail_ s)) [].
Definition read_slot {T} `{!Inhabited T} (i : Z) : M T T :=
  query (fun s => slot (buff_ s) i).

(** [c.notify_all()] *)
Definition notify_all {T} (c : cursor) : M T unit := fun s => Done tt s [c].

(** [assert(b)] in a debug build *)
Definition assert {T} (b : bool) : M T unit :=
  fun s => if b then Done tt s [] else AssertFailed.

(** ** RingBuffer (the overwrite buffer) *)

Module RingBuffer.
Section Buffer.
Context {T : Type} `{!Inhabited T} (size_ : Z).

Definition write (v : T) : M T bool :=
  full <- query (is_full size_) ;;
  if full then ret false
  else
    h <- load_head ;;
    write_slot (Z.land h (size_mask_ size_)) v ;;;
    fetch_add_head ;;;
    ret true.

Definition overwrite (v : T) : M T unit :=
  full <- query (is_full size_) ;;
  (if full then fetch_add_tail else ret tt) ;;;
  h <- load_head ;;
  write_slot (Z.land h (size_mask_ size_)) v ;;;
  fetch_add_head.

Definition read : M T (option T) :=
  h <- load_head ;;
  t <- load_tail ;;
  let lhead := Z.land h (size_mask_ size_) in
  let ltail := Z.land t (size_mask_ size_) in
  if lhead =? ltail then ret None
  else
    val <- read_slot ltail ;;
    fetch_add_tail ;;;
    ret (Some val).

Definition try_current : M T (option T) :=
  lhead <- load_head ;;
  ltail <- load_tail ;;
  if Z.land lhead (size_mask_ size_) =? Z.land ltail (size_mask_ size_)
  then ret None
  else
    val <- read_slot (Z.land ltail (size_mask_ size_)) ;;
    ret (Some val).
End Buffer.
End RingBuffer.

(** ** RingQueue (the blocking queue), operations that never park *)

Module RingQueue.
Section Queue.
Context {T : Type} `{!Inhabited T} (size_ : Z).

Definition try_enqueue (v : T) : M T bool :=
  lhead <- load_head ;;
  ltail <- load_tail ;;
  if Z.land (wrap (lhead + 1)) (size_mask_ size_) =? Z.land ltail (size_mask_ size_)
  then ret false
  else
    write_slot (Z.land lhead (size_mask_ size_)) v ;;;
    fetch_add_head ;;;
    notify_all Head ;;;
    ret true.

Definition try_dequeue : M T (option T) :=
  h <- load_head ;;
  t <- load_tail ;;
  let lhead := Z.land h (size_mask_ size_) in
  let ltail := Z.land t (size_mask_ size_) in
  if lhead =? ltail then ret None
  else
    val <- read_slot ltail ;;
    fetch_add_tail ;;;
    notify_all Tail ;;;
    ret (Some val).

Definition try_current : M T (option T) :=
  lhead <- load_head ;;
  ltail <- load_tail ;;
  if Z.land lhead (size_mask_ size_) =? Z.land ltail (size_mask_ size_)
  then ret None
  else
    val <- read_slot (Z.land ltail (size_mask_ size_)) ;;
    ret (Some val).

(** [lhead >= ltail ? lhead - ltail : (size_ - ltail) + lhead] *)
Definition max_distance (lhead ltail : Z) : Z :=
  if lhead >=? ltail then wrap (lhead - ltail)
  else wrap (wrap (size_ - ltail) + lhead).

Definition can_peek (amnt : Z) : M T bool :=
  h <- load_head ;;
  t <- load_tail ;;
  let lhead := Z.land h (size_mask_ size_) in
  let ltail := Z.land t (size_mask_ size_) in
  assert (amnt <? size_) ;;;
  ret (amnt <? max_distance lhead ltail).

Definition try_peek (amnt : Z) : M T (option T) :=
  h <- load_head ;;
  t <- load_tail ;;
  let lhead := Z.land h (size_mask_ size_) in
  let ltail := Z.land t (size_mask_ size_) in
  if amnt >=? max_distance lhead ltail then ret None
  else
    assert (amnt <? size_) ;;;
    assert (Z.land (wrap (ltail + amnt)) (size_mask_ size_) <? size_) ;;;
    val <- read_slot (Z.land (wrap (ltail + amnt)) (size_mask_ size_)) ;;
    ret (Some val).

(** [wake_all()] *)
Definition wake_all : M T unit :=
  notify_all Head ;;;
  notify_all Tail.
End Queue.
End RingQueue.

(** ** Logical view of a ring *)

Section View.
Context {T : Type} `{!Inhabited T} (size_ : Z).

(** The unsigned difference [head_ - tail_]: how many elements are unread. *)
Definition unread (s : ring T) : Z := wrap (head_ s - tail_ s).

(** The physical slot of the element [i] positions ahead of the read cursor. *)
Definition slot_of (s : ring T) (i : Z) : Z :=
  Z.land (wrap (tail_ s + i)) (size_mask_ size_).

(** The unread elements, oldest first. *)
Definition contents (s : ring T) : list T :=
  (fun i => slot (buff_ s) (slot_of s i)) <$> seqZ 0 (unread s).

(** Well-formed rings: the array has [size_] slots, the cursors are
    [size_t] values and at most [size_ - 1] elements are unread. *)
Definition ring_inv (s : ring T) : Prop :=
  length (buff_ s) = Z.to_nat size_ /\
  is_size_t (head_ s) /\ is_size_t (tail_ s) /\
  unread s <= size_ - 1.

(** The ring after [buff_[head_ & mask] = v; head_.fetch_add(1)]. *)
Definition pushed (s : ring T) (v : T) : ring T :=
  Ring (store (buff_ s) (Z.land (head_ s) (size_mask_ size_)) v)
       (wrap (head_ s + 1)) (tail_ s).

(** The ring after [tail_.fetch_add(1)]. *)
Definition popped (s : ring T) : ring T :=
  Ring (buff_ s) (head_ s) (wrap (tail_ s + 1)).

(** The distance [can_peek] and [try_peek] compute from the masked cursors. *)
Definition peek_distance (s : ring T) : Z :=
  RingQueue.max_distance size_ (Z.land (head_ s) (size_mask_ size_))
                               (Z.land (tail_ s) (size_mask_ size_)).

(** The available count in the words of the specification: the difference
    of the masked cursors, or [(N - read) + write] when the write cursor
    has wrapped around the array and the read cursor has not. *)
Definition available (s : ring T) : Z :=
  let w := Z.land (head_ s) (size_mask_ size_) in
  let r := Z.land (tail_ s) (size_mask_ size_) in
  if w >=? r then w - r else (size_ - r) + w.

(** The element in the slot of the read cursor. *)
Definition oldest (s : ring T) : T :=
  slot (buff_ s) (Z.land (tail_ s) (size_mask_ size_)).
End View.

(** ** Calls that never park, as one interface *)

Inductive call (T : Type) : Type :=
| Write (v : T) | Overwrite (v : T) | Read | BufferTryCurrent
| TryEnqueue (v : T) | TryDequeue | QueueTryCurrent
| CanPeek (amnt : Z) | TryPeek (amnt : Z) | WakeAll
| IsFull | IsEmpty.
Arguments Write {T} _.
Arguments Overwrite {T} _.
Arguments Read {T}.
Arguments BufferTryCurrent {T}.
Arguments TryEnqueue {T} _.
Arguments TryDequeue {T}.
Arguments QueueTryCurrent {T}.
Arguments CanPeek {T} _.
Arguments TryPeek {T} _.
Arguments WakeAll {T}.
Arguments IsFull {T}.
Arguments IsEmpty {T}.

Inductive reply (T : Type) : Type :=
| RBool (b : bool) | ROpt (o : option T) | RVal (v : T) | RVoid.
Arguments RBool {T} _.
Arguments ROpt {T} _.
Arguments RVal {T} _.
Arguments RVoid {T}.

Section Calls.
Context {T : Type} `{!Inhabited T} (size_ : Z).

Definition perform (c : call T) : M T (reply T) :=
  match c with
  | Write v => b <- RingBuffer.write size_ v ;; ret (RBool b)
  | Overwrite v => RingBuffer.overwrite size_ v ;;; ret RVoid
  | Read => o <- RingBuffer.read size_ ;; ret (ROpt o)
  | BufferTryCurrent => o <- RingBuffer.try_current size_ ;; ret (ROpt o)
  | TryEnqueue v => b <- RingQueue.try_enqueue size_ v ;; ret (RBool b)
  | TryDequeue => o <- RingQueue.try_dequeue size_ ;; ret (ROpt o)
  | QueueTryCurrent => o <- RingQueue.try_current size_ ;; ret (ROpt o)
  | CanPeek amnt => b <- RingQueue.can_peek size_ amnt ;; ret (RBool b)
  | TryPeek amnt => o <- RingQueue.try_peek size_ amnt ;; ret (ROpt o)
  | WakeAll => RingQueue.wake_all ;;; ret RVoid
  | IsFull => b <- query (is_full size_) ;; ret (RBool b)
  | IsEmpty => b <- query (is_empty size_) ;; ret (RBool b)
  end.

(** A sequence of calls made one after the other by a single thread. *)
Fixpoint exec (cs : list (call T)) : M T (list (reply T)) :=
  match cs with
  | [] => ret []
  | c :: cs' => r <- perform c ;; rs <- exec cs' ;; ret (r :: rs)
  end.

(** The values handed to [write] calls, and the values [read] calls gave
    back, in call order. *)
Definition written (cs : list (call T)) : list T :=
  omap (fun c => match c with Write v => Some v | _ => None end) cs.

Definition accepted (cs : list (call T)) (rs : list (reply T)) : list T :=
  omap (fun cr => match cr with (Write v, RBool true) => Some v | _ => None end)
       (zip cs rs).

Definition returned (rs : list (reply T)) : list T :=
  omap (fun r => match r with ROpt (Some v) => Some v | _ => None end) rs.

Definition write_or_read (c : call T) : Prop :=
  match c with Write _ | Read => True | _ => False end.

(** No [write] of the sequence is attempted on a full buffer. *)
Fixpoint respects_capacity (cs : list (call T)) (s : ring T) : Prop :=
  match cs with
  | [] => True
  | c :: cs' =>
      (match c with Write _ => is_full size_ s = false | _ => True end) /\
      match perform c s with
      | Done _ s' _ => respects_capacity cs' s'
      | AssertFailed => True
      end
  end.
End Calls.

(** ** The parking operations, one atomic access at a time

    [enqueue], [dequeue], [current] and [peek] may park in
    [std::atomic::wait].  Each is a small machine over program points; a step
    performs one access to the shared ring.  [c.wait(old)] returns only once
    the value of [c] differs from [old]: a thread woken while the value is
    still [old] stays in the wait. *)

Inductive producer (T : Type) : Type :=
| PIdle
| Enq0 (v : T)
| Enq1 (v : T) (lhead : Z)
| EnqWait (v : T) (lhead ltail : Z)
| EnqStore (v : T) (lhead : Z)
| EnqAdd
| EnqNotify.
Arguments PIdle {T}.
Arguments Enq0 {T} _.
Arguments Enq1 {T} _ _.
Arguments EnqWait {T} _ _ _.
Arguments EnqStore {T} _ _.
Arguments EnqAdd {T}.
Arguments EnqNotify {T}.

Inductive consumer (T : Type) : Type :=
| CIdle
| Deq0
| Deq1 (lhead : Z)
| DeqWait (lhead : Z)
| DeqRead
| DeqAdd (val : T)
| DeqNotify (val : T)
| Cur0
| Cur1 (lhead : Z)
| CurWait (lhead ltail : Z)
| CurRead (ltail : Z)
| Peek0 (amnt : Z)
| PeekCan0 (amnt ltail : Z)
| PeekCan1 (amnt ltail lhead : Z)
| PeekLoad (amnt ltail : Z)
| PeekWait (amnt ltail h : Z)
| PeekRead (amnt ltail : Z).
Arguments CIdle {T}.
Arguments Deq0 {T}.
Arguments Deq1 {T} _.
Arguments DeqWait {T} _.
Arguments DeqRead {T}.
Arguments DeqAdd {T} _.
Arguments DeqNotify {T} _.
Arguments Cur0 {T}.
Arguments Cur1 {T} _.
Arguments CurWait {T} _ _.
Arguments CurRead {T} _.
Arguments Peek0 {T} _.
Arguments PeekCan0 {T} _ _.
Arguments PeekCan1 {T} _ _ _.
Arguments PeekLoad {T} _ _.
Arguments PeekWait {T} _ _ _.
Arguments PeekRead {T} _ _.

Module Parking.
Section Machines.
Context {T : Type} `{!Inhabited T} (size_ : Z).

(** [RingQueue::enqueue].  The result of a step is the next program
    point and the value returned to the caller, if the call returns. *)
Definition producer_step (p : producer T) : M T (producer T * option (reply T)) :=
  match p with
  | PIdle => ret (PIdle, None)
  | Enq0 v =>
      lhead <- load_head ;;
      ret (Enq1 v lhead, None)
  | Enq1 v lhead =>
      ltail <- load_tail ;;
      if Z.land (wrap (lhead + 1)) (size_mask_ size_) =? Z.land ltail (size_mask_ size_)
      then ret (EnqWait v lhead ltail, None)
      else ret (EnqStore v lhead, None)
  | EnqWait v lhead ltail =>
      t <- load_tail ;;
      if t =? ltail then ret (EnqWait v lhead ltail, None)
      else ret (EnqStore v lhead, None)
  | EnqStore v lhead =>
      write_slot (Z.land lhead (size_mask_ size_)) v ;;;
      ret (EnqAdd, None)
  | EnqAdd =>
      fetch_add_head ;;;
      ret (EnqNotify, None)
  | EnqNotify =>
      notify_all Head ;;;
      ret (PIdle, Some RVoid)
  end.

(** [RingQueue::dequeue], [current] of both classes and
    [RingQueue::peek], whose loop calls [can_peek]. *)
Definition consumer_step (c : consumer T) : M T (consumer T * option (reply T)) :=
  match c with
  | CIdle => ret (CIdle, None)
  | Deq0 =>
      lhead <- load_head ;;
      ret (Deq1 lhead, None)
  | Deq1 lhead =>
      ltail <- load_tail ;;
      if Z.land lhead (size_mask_ size_) =? Z.land ltail (size_mask_ size_)
      then ret (DeqWait lhead, None)
      else ret (DeqRead, None)
  | DeqWait lhead =>
      h <- load_head ;;
      if h =? lhead then ret (DeqWait lhead, None)
      else ret (DeqRead, None)
  | DeqRead =>
      t <- load_tail ;;
      val <- read_slot (Z.land t (size_mask_ size_)) ;;
      ret (DeqAdd val, None)
  | DeqAdd val =>
      fetch_add_tail ;;;
      ret (DeqNotify val, None)
  | DeqNotify val =>
      notify_all Tail ;;;
      ret (CIdle, Some (RVal val))
  | Cur0 =>
      lhead <- load_head ;;
      ret (Cur1 lhead, None)
  | Cur1 lhead =>
      ltail <- load_tail ;;
      if Z.land lhead (size_mask_ size_) =? Z.land ltail (size_mask_ size_)
      then ret (CurWait lhead ltail, None)
      else ret (CurRead ltail, None)
  | CurWait lhead ltail =>
      h <- load_head ;;
      if h =? lhead then ret (CurWait lhead ltail, None)
      else ret (CurRead ltail, None)
  | CurRead ltail =>
      val <- read_slot (Z.land ltail (size_mask_ size_)) ;;
      ret (CIdle, Some (RVal val))
  | Peek0 amnt =>
      t <- load_tail ;;
      ret (PeekCan0 amnt (Z.land t (size_mask_ size_)), None)
  | PeekCan0 amnt ltail =>
      h <- load_head ;;
      ret (PeekCan1 amnt ltail (Z.land h (size_mask_ size_)), None)
  | PeekCan1 amnt ltail lhead =>
      t <- load_tail ;;
      assert (amnt <? size_) ;;;
      if amnt <? RingQueue.max_distance size_ lhead (Z.land t (size_mask_ size_))
      then ret (PeekRead amnt ltail, None)
      else ret (PeekLoad amnt ltail, None)
  | PeekLoad amnt ltail =>
      h <- load_head ;;
      ret (PeekWait amnt ltail h, None)
  | PeekWait amnt ltail h =>
      h' <- load_head ;;
      if h' =? h then ret (PeekWait amnt ltail h, None)
      else ret (PeekCan0 amnt ltail, None)
  | PeekRead amnt ltail =>
      val <- read_slot (Z.land (wrap (ltail + amnt)) (size_mask_ size_)) ;;
      ret (CIdle, Some (RVal val))
  end.

(** A parking call run with no other thread around: it returns, fails an
    assertion, or is still inside the call when the fuel is spent. *)
Inductive alone : Type :=
| Returned (r : reply T) (s : ring T)
| Failed
| Inside (c : consumer T) (s : ring T).

Fixpoint consume (fuel : nat) (c : consumer T) (s : ring T) : alone :=
  match fuel with
  | O => Inside c s
  | S fuel' =>
      match consumer_step c s with
      | Done (_, Some r) s' _ => Returned r s'
      | Done (c', None) s' _ => consume fuel' c' s'
      | AssertFailed => Failed
      end
  end.

(** The thread is inside [wait]. *)
Definition producer_waits (p : producer T) : bool :=
  match p with EnqWait _ _ _ => true | _ => false end.

Definition consumer_waits (c : consumer T) : bool :=
  match c with
  | DeqWait _ | CurWait _ _ | PeekWait _ _ _ => true
  | _ => false
  end.

(** The thread is blocked: its [wait] sees the value it was given. *)
Definition producer_parked (p : producer T) (s : ring T) : bool :=
  match p with
  | EnqWait _ _ ltail => tail_ s =? ltail
  | _ => false
  end.

Definition consumer_parked (c : consumer T) (s : ring T) : bool :=
  match c with
  | DeqWait lhead | CurWait lhead _ => head_ s =? lhead
  | PeekWait _ _ h => head_ s =? h
  | _ => false
  end.

(** The next step of the thread writes [buff_] or advances [head_]. *)
Definition producer_touches (p : producer T) : bool :=
  match p with EnqStore _ _ | EnqAdd => true | _ => false end.

(** The condition the call of the thread waits for: [enqueue] for the ring
    not to be full, [dequeue] and [current] for it not to be empty,
    [peek(amnt)] for [can_peek(amnt)]. *)
Definition producer_ready (p : producer T) (s : ring T) : bool :=
  match p with
  | PIdle | EnqNotify => true
  | _ => negb (is_full size_ s)
  end.

Definition consumer_ready (c : consumer T) (s : ring T) : bool :=
  match c with
  | CIdle | DeqNotify _ => true
  | Deq0 | Deq1 _ | DeqWait _ | DeqRead | DeqAdd _ => negb (is_empty size_ s)
  | Cur0 | Cur1 _ | CurWait _ _ | CurRead _ => negb (is_empty size_ s)
  | Peek0 a | PeekCan0 a _ | PeekCan1 a _ _ | PeekLoad a _ | PeekWait a _ _
  | PeekRead a _ => a <? peek_distance size_ s
  end.

(** The next step of the thread reads [buff_] or advances [tail_]. *)
Definition consumer_touches (c : consumer T) : bool :=
  match c with
  | DeqRead | DeqAdd _ | CurRead _ | PeekRead _ _ => true
  | _ => false
  end.

(** [n] steps of the consumer with no step of the producer in between. *)
Fixpoint steps_alone (n : nat) (c : consumer T) (s : ring T)
  : option (consumer T * ring T) :=
  match n with
  | O => Some (c, s)
  | S n' =>
      match consumer_step c s with
      | Done (c', _) s' _ => steps_alone n' c' s'
      | AssertFailed => None
      end
  end.
End Machines.
End Parking.
Export Parking.

(** ** Two threads on one ring

    One producer thread and one consumer thread share the ring.  A thread
    that is idle makes a call of its side: a call that never parks takes
    effect in one step, a parking call proceeds by the steps above. *)

Inductive variant : Set := Buffer | Queue.

Record config (T : Type) : Type := Config {
  shared : ring T;
  prod : producer T;
  cons : consumer T
}.
Arguments Config {T} _ _ _.
Arguments shared {T} _.
Arguments prod {T} _.
Arguments cons {T} _.

Section System.
Context {T : Type} `{!Inhabited T} (size_ : Z).

Definition producer_call (k : variant) (c : call T) : Prop :=
  match k, c with
  | Buffer, (Write _ | Overwrite _) => True
  | Queue, (TryEnqueue _ | WakeAll) => True
  | _, (IsFull | IsEmpty) => True
  | _, _ => False
  end.

Definition consumer_call (k : variant) (c : call T) : Prop :=
  match k, c with
  | Buffer, (Read | BufferTryCurrent) => True
  | Queue, (TryDequeue | QueueTryCurrent | WakeAll) => True
  | Queue, (CanPeek a | TryPeek a) => is_size_t a
  | _, (IsFull | IsEmpty) => True
  | _, _ => False
  end.

(** The first program point of a parking call of the consumer. *)
Definition consumer_entry (k : variant) (c : consumer T) : Prop :=
  match k, c with
  | _, Cur0 => True
  | Queue, Deq0 => True
  | Queue, Peek0 a => is_size_t a
  | _, _ => False
  end.

Inductive sys_step (k : variant) : config T -> config T -> Prop :=
| producer_calls c call r s' w :
    prod c = PIdle -> producer_call k call ->
    perform size_ call (shared c) = Done r s' w ->
    sys_step k c (Config s' PIdle (cons c))
| producer_enters c v :
    k = Queue -> prod c = PIdle ->
    sys_step k c (Config (shared c) (Enq0 v) (cons c))
| producer_runs c p' o s' w :
    prod c <> PIdle ->
    producer_step size_ (prod c) (shared c) = Done (p', o) s' w ->
    sys_step k c (Config s' p' (cons c))
| consumer_calls c call r s' w :
    cons c = CIdle -> consumer_call k call ->
    perform size_ call (shared c) = Done r s' w ->
    sys_step k c (Config s' (prod c) CIdle)
| consumer_enters c e :
    cons c = CIdle -> consumer_entry k e ->
    sys_step k c (Config (shared c) (prod c) e)
| consumer_runs c c' o s' w :
    cons c <> CIdle ->
    consumer_step size_ (cons c) (shared c) = Done (c', o) s' w ->
    sys_step k c (Config s' (prod c) c').

(** A call either thread may make. *)
Definition any_call (k : variant) (c : call T) : Prop :=
  producer_call k c \/ consumer_call k c.

(** Configurations reachable from construction. *)
Inductive reachable (k : variant) : config T -> Prop :=
| reachable_init : reachable k (Config (init size_) PIdle CIdle)
| reachable_step c c' : reachable k c -> sys_step k c c' -> reachable k c'.

(** A cursor is left as it is or advanced by one, as [fetch_add(1)] does
    on a [size_t]. *)
Definition advanced (x x' : Z) : Prop := x' = x \/ x' = wrap (x + 1).

(** What a thread inside a parking call knows about the shared ring. *)
Definition producer_inv (p : producer T) (s : ring T) : Prop :=
  match p with
  | PIdle | Enq0 _ | EnqNotify => True
  | Enq1 _ lhead => lhead = head_ s
  | EnqWait _ lhead ltail =>
      lhead = head_ s /\ (tail_ s = ltail \/ unread s < size_ - 1)
  | EnqStore _ lhead => lhead = head_ s /\ unread s < size_ - 1
  | EnqAdd => unread s < size_ - 1
  end.

Definition consumer_inv (c : consumer T) (s : ring T) : Prop :=
  match c with
  | CIdle | Deq0 | Cur0 | DeqNotify _ => True
  | Deq1 lhead | DeqWait lhead | Cur1 lhead | CurWait lhead _ =>
      head_ s = lhead \/ 0 < unread s
  | DeqRead | DeqAdd _ | CurRead _ => 0 < unread s
  | Peek0 a | PeekCan0 a _ => is_size_t a
  | PeekCan1 a _ lhead =>
      is_size_t a /\
      RingQueue.max_distance size_ lhead (Z.land (tail_ s) (size_mask_ size_))
        <= unread s
  | PeekLoad a _ | PeekWait a _ _ => 0 <= a < size_
  | PeekRead a _ => 0 <= a < unread s
  end.

(** [RingBuffer] has no parking call but [current]. *)
Definition producer_allowed (k : variant) (p : producer T) : Prop :=
  match k, p with
  | Buffer, PIdle => True
  | Buffer, _ => False
  | Queue, _ => True
  end.

Definition consumer_allowed (k : variant) (c : consumer T) : Prop :=
  match k, c with
  | Buffer, (CIdle | Cur0 | Cur1 _ | CurWait _ _ | CurRead _) => True
  | Buffer, _ => False
  | Queue, _ => True
  end.

Definition sys_inv (k : variant) (c : config T) : Prop :=
  ring_inv size_ (shared c) /\
  producer_inv (prod c) (shared c) /\ consumer_inv (cons c) (shared c) /\
  producer_allowed k (prod c) /\ consumer_allowed k (cons c).

(** What the steps of one thread may do to the ring the other relies on. *)
Definition producer_move (k : variant) (s s' : ring T) : Prop :=
  ring_inv size_ s' /\
  (head_ s' = head_ s \/ 0 < unread s') /\
  (0 < unread s -> 0 < unread s') /\
  (k = Queue -> tail_ s' = tail_ s /\ unread s <= unread s').

Definition consumer_move (s s' : ring T) : Prop :=
  ring_inv size_ s' /\
  head_ s' = head_ s /\
  (tail_ s' = tail_ s \/ unread s' < size_ - 1) /\
  unread s' <= unread s.
End System.

(** ** A bounded first-in first-out list as reference

    What a caller may expect of the calls that never park, stated on the list
    of unread values alone: at most [size_ - 1] values are held, [write] and
    [try_enqueue] refuse a value when that many are held, [overwrite] drops
    the oldest one instead. *)

Section Model.
Context {T : Type} (size_ : Z).

Definition model_full (q : list T) : bool := Z.of_nat (length q) =? size_ - 1.

Definition model (c : call T) (q : list T) : option (reply T * list T) :=
  match c with
  | Write v | TryEnqueue v =>
      if model_full q then Some (RBool false, q) else Some (RBool true, q ++ [v])
  | Overwrite v =>
      Some (RVoid, (if model_full q then drop 1 q else q) ++ [v])
  | Read | TryDequeue =>
      match q with
      | [] => Some (ROpt None, [])
      | x :: q' => Some (ROpt (Some x), q')
      end
  | BufferTryCurrent | QueueTryCurrent => Some (ROpt (head q), q)
  | CanPeek amnt =>
      if amnt <? size_ then Some (RBool (amnt <? Z.of_nat (length q)), q) else None
  | TryPeek amnt => Some (ROpt (q !! Z.to_nat amnt), q)
  | WakeAll => Some (RVoid, q)
  | IsFull => Some (RBool (model_full q), q)
  | IsEmpty => Some (RBool (Z.of_nat (length q) =? 0), q)
  end.

Fixpoint model_run (cs : list (call T)) (q : list T)
  : option (list (reply T) * list T) :=
  match cs with
  | [] => Some ([], q)
  | c :: cs' =>
      match model c q with
      | Some (r, q1) =>
          match model_run cs' q1 with
          | Some (rs, q2) => Some (r :: rs, q2)
          | None => None
          end
      | None => None
      end
  end.

(** A [size_t] argument is not negative. *)
Definition call_args_ok (c : call T) : Prop :=
  match c with
  | CanPeek amnt | TryPeek amnt => 0 <= amnt
  | _ => True
  end.

(** The cursors a call is seen to notify, given its reply. *)
Definition notified (c : call T) (r : reply T) : list cursor :=
  match c, r with
  | TryEnqueue _, RBool true => [Head]
  | TryDequeue, ROpt (Some _) => [Tail]
  | WakeAll, _ => [Head; Tail]
  | _, _ => []
  end.

(** The last [n] elements of a list. *)
Definition keep_last (n : nat) (l : list T) : list T := drop (length l - n) l.
End Model.

(** ** The producer's parking call run with no other thread around *)

Inductive enqueuing (T : Type) : Type :=
| EnqueueReturned (s : ring T) (woken : list cursor)
| EnqueueInside (p : producer T) (s : ring T).
Arguments EnqueueReturned {T} _ _.
Arguments EnqueueInside {T} _ _.

Section ProducerAlone.
Context {T : Type} `{!Inhabited T} (size_ : Z).

Fixpoint produce (fuel : nat) (p : producer T) (s : ring T) : enqueuing T :=
  match fuel with
  | O => EnqueueInside p s
  | S fuel' =>
      match producer_step size_ p s with
      | Done (_, Some _) s' w => EnqueueReturned s' w
      | Done (p', None) s' _ => produce fuel' p' s'
      | AssertFailed => EnqueueInside p s
      end
  end.
End ProducerAlone.

(** ** The two threads of a queue, with what went in and what came out *)

Record traced (T : Type) : Type := Traced {
  now : config T;
  put : list T;
  got : list T
}.
Arguments Traced {T} _ _ _.
Arguments now {T} _.
Arguments put {T} _.
Arguments got {T} _.

Section History.
Context {T : Type} `{!Inhabited T} (size_ : Z).

(** The value a call hands to the queue, and the value a call hands back. *)
Definition call_puts (c : call T) (r : reply T) : list T :=
  match c, r with
  | TryEnqueue v, RBool true => [v]
  | _, _ => []
  end.

Definition call_gets (c : call T) (r : reply T) : list T :=
  match c, r with
  | TryDequeue, ROpt (Some x) => [x]
  | _, _ => []
  end.

Definition return_gets (c : consumer T) (o : option (reply T)) : list T :=
  match c, o with
  | DeqNotify _, Some (RVal x) => [x]
  | _, _ => []
  end.

(** The runs of a [RingQueue] shared by one producer and one consumer
    thread, as in [sys_step], recording the values passed to [enqueue] and
    accepted by [try_enqueue], and the values returned by [dequeue] and
    [try_dequeue]. *)
Inductive queue_run : traced T -> Prop :=
| run_init : queue_run (Traced (Config (init size_) PIdle CIdle) [] [])
| run_producer_calls t call r s' w :
    queue_run t ->
    prod (now t) = PIdle -> producer_call Queue call ->
    perform size_ call (shared (now t)) = Done r s' w ->
    queue_run (Traced (Config s' PIdle (cons (now t)))
                      (put t ++ call_puts call r) (got t))
| run_producer_enters t v :
    queue_run t ->
    prod (now t) = PIdle ->
    queue_run (Traced (Config (shared (now t)) (Enq0 v) (cons (now t)))
                      (put t ++ [v]) (got t))
| run_producer_runs t p' o s' w :
    queue_run t ->
    prod (now t) <> PIdle ->
    producer_step size_ (prod (now t)) (shared (now t)) = Done (p', o) s' w ->
    queue_run (Traced (Config s' p' (cons (now t))) (put t) (got t))
| run_consumer_calls t call r s' w :
    queue_run t ->
    cons (now t) = CIdle -> consumer_call Queue call ->
    perform size_ call (shared (now t)) = Done r s' w ->
    queue_run (Traced (Config s' (prod (now t)) CIdle)
                      (put t) (got t ++ call_gets call r))
| run_consumer_enters t e :
    queue_run t ->
    cons (now t) = CIdle -> consumer_entry Queue e ->
    queue_run (Traced (Config (shared (now t)) (prod (now t)) e) (put t) (got t))
| run_consumer_runs t c' o s' w :
    queue_run t ->
    cons (now t) <> CIdle ->
    consumer_step size_ (cons (now t)) (shared (now t)) = Done (c', o) s' w ->
    queue_run (Traced (Config s' (prod (now t)) c')
                      (put t) (got t ++ return_gets (cons (now t)) o)).

(** The value a [dequeue] has taken out and not yet returned, and the value
    an [enqueue] was given and has not yet published. *)
Definition in_hand (c : consumer T) : list T :=
  match c with DeqNotify val => [val] | _ => [] end.

Definition on_the_way (p : producer T) (s : ring T) : list T :=
  match p with
  | Enq0 v | Enq1 v _ | EnqWait v _ _ | EnqStore v _ => [v]
  | EnqAdd => [slot (buff_ s) (Z.land (head_ s) (size_mask_ size_))]
  | PIdle | EnqNotify => []
  end.

(** What the consumer of a queue knows of the read cursor, which only it
    advances. *)
Definition consumer_owns (c : consumer T) (s : ring T) : Prop :=
  match c with
  | CurWait _ ltail | CurRead ltail => ltail = tail_ s
  | PeekCan0 _ ltail | PeekCan1 _ ltail _ | PeekLoad _ ltail | PeekWait _ ltail _
  | PeekRead _ ltail => ltail = Z.land (tail_ s) (size_mask_ size_)
  | DeqAdd val => exists rest, contents size_ s = val :: rest
  | _ => True
  end.
End History.

(** ** What a thread in [wait] found when it tested its condition *)

Section Known.
Context {T : Type} (size_ : Z).


End Known.

(** * Properties *)

(** ** Masks, wrap-around and powers of two *)

Lemma SIZE_MOD_eq : SIZE_MOD = 18446744073709551616.
Proof. reflexivity. Qed.

Lemma wrap_range x : is_size_t (wrap x).
Proof. unfold is_size_t, wrap. rewrite SIZE_MOD_eq. apply Z.mod_pos_bound. lia. Qed.

Lemma wrap_small x : is_size_t x -> wrap x = x.
Proof. unfold is_size_t, wrap. intros Hx. apply Z.mod_small. lia. Qed.

Section Capacity.
Context (size_ : Z) (Hcap : capacity_ok size_).

Lemma capacity_pow2 : exists k, 1 <= k < SIZE_BITS /\ size_ = 2 ^ k.
Proof.
  destruct Hcap as (Hand & Hgt & Hlt).
  unfold can_mod_opt_ in Hand. apply Z.eqb_eq in Hand.
  set (k := Z.log2 size_).
  assert (Hk : 0 <= k) by apply Z.log2_nonneg.
  destruct (Z.log2_spec size_ ltac:(lia)) as [Hlo Hhi]. fold k in Hlo, Hhi.
  assert (Heq : size_ = 2 ^ k).
  { destruct (Z.eq_dec size_ (2 ^ k)) as [|Hne]; [done|]. exfalso.
    assert (Hlog : Z.log2 (size_ - 1) = k).
    { apply Z.log2_unique; [done|]. lia. }
    assert (Hb1 : Z.testbit size_ k = true) by (apply Z.bit_log2; lia).
    assert (Hb2 : Z.testbit (size_ - 1) k = true).
    { rewrite <- Hlog. apply Z.bit_log2. lia. }
    assert (Hb : Z.testbit (Z.land size_ (size_ - 1)) k = true).
    { rewrite Z.land_spec, Hb1, Hb2. done. }
    rewrite Hand, Z.bits_0 in Hb. done. }
  exists k. split; [|done]. split.
  - destruct (Z.eq_dec k 0) as [->|]; [|lia]. simpl in Heq. lia.
  - unfold SIZE_MOD in Hlt. rewrite Heq in Hlt.
    apply Z.pow_lt_mono_r_iff in Hlt; unfold SIZE_BITS in *; lia.
Qed.

Lemma size_pos : 1 < size_.
Proof. apply Hcap. Qed.

Lemma size_divides : (size_ | SIZE_MOD).
Proof.
  destruct capacity_pow2 as (k & [Hk1 Hk2] & ->).
  exists (2 ^ (SIZE_BITS - k)). unfold SIZE_MOD.
  rewrite <- Z.pow_add_r by lia. f_equal. lia.
Qed.

Lemma mask_mod x : Z.land x (size_mask_ size_) = x mod size_.
Proof.
  destruct capacity_pow2 as (k & [Hk1 Hk2] & ->).
  unfold size_mask_. rewrite <- Z.land_ones by lia.
  rewrite Z.ones_equiv. done.
Qed.

Lemma wrap_mod_size x : wrap x mod size_ = x mod size_.
Proof. unfold wrap. apply Z.mod_mod_divide, size_divides. Qed.

Lemma mask_wrap x : Z.land (wrap x) (size_mask_ size_) = x mod size_.
Proof. rewrite mask_mod. apply wrap_mod_size. Qed.

Lemma mask_range x : 0 <= Z.land x (size_mask_ size_) < size_.
Proof. rewrite mask_mod. apply Z.mod_pos_bound. pose proof size_pos. lia. Qed.

(** Two offsets below the capacity address the same slot only if they are
    equal. *)
Lemma mod_offset_inj t i j :
  0 <= i < size_ -> 0 <= j < size_ ->
  (t + i) mod size_ = (t + j) mod size_ -> i = j.
Proof.
  intros Hi Hj Heq. apply Z.cong_iff_ex in Heq as [n Hn].
  assert (i - j = n * size_) by lia.
  assert (n = 0) by nia. lia.
Qed.
End Capacity.

(** ** Cursors and the logical contents *)

Section RingFacts.
Context {T : Type} `{!Inhabited T} (size_ : Z) (Hcap : capacity_ok size_).

Lemma size_lt_mod : size_ < SIZE_MOD.
Proof. apply Hcap. Qed.

Lemma unread_nonneg (s : ring T) : 0 <= unread s.
Proof. apply wrap_range. Qed.

Lemma head_as_tail_plus (s : ring T) :
  is_size_t (head_ s) -> head_ s = wrap (tail_ s + unread s).
Proof.
  intros Hh. unfold unread, wrap. rewrite Zplus_mod_idemp_r.
  replace (tail_ s + (head_ s - tail_ s)) with (head_ s) by lia.
  symmetry. apply Z.mod_small. done.
Qed.

Lemma head_mod_size (s : ring T) :
  is_size_t (head_ s) -> head_ s mod size_ = (tail_ s + unread s) mod size_.
Proof.
  intros Hh. rewrite (head_as_tail_plus s Hh) at 1. by apply wrap_mod_size.
Qed.

Lemma is_empty_unread (s : ring T) :
  ring_inv size_ s -> is_empty size_ s = true <-> unread s = 0.
Proof.
  intros (_ & Hh & _ & Hd). pose proof (unread_nonneg s) as Hd0.
  pose proof (size_pos _ Hcap) as HN.
  unfold is_empty. rewrite Z.eqb_eq, !(mask_mod _ Hcap), (head_mod_size s Hh).
  split.
  - intros Heq. replace (tail_ s) with (tail_ s + 0) in Heq at 2 by lia.
    apply (mod_offset_inj size_) in Heq; lia.
  - intros ->. f_equal. lia.
Qed.

Lemma is_full_unread (s : ring T) :
  ring_inv size_ s -> is_full size_ s = true <-> unread s = size_ - 1.
Proof.
  intros (_ & Hh & _ & Hd). pose proof (unread_nonneg s) as Hd0.
  pose proof (size_pos _ Hcap) as HN.
  unfold is_full. rewrite Z.eqb_eq, (mask_wrap _ Hcap), (mask_mod _ Hcap).
  rewrite <- Zplus_mod_idemp_l, (head_mod_size s Hh), Zplus_mod_idemp_l.
  split.
  - intros Heq. apply Z.cong_iff_ex in Heq as [n Hn].
    assert (n = 1) by nia. subst n. lia.
  - intros Heq. apply Z.cong_iff_ex. exists 1. lia.
Qed.

Lemma is_empty_false_unread (s : ring T) :
  ring_inv size_ s -> is_empty size_ s = false <-> 0 < unread s.
Proof.
  intros Hinv. pose proof (is_empty_unread s Hinv) as Hiff.
  pose proof (unread_nonneg s).
  destruct (is_empty size_ s); split; intros; try done.
  - assert (unread s = 0) by (by apply Hiff). lia.
  - destruct (Z.eq_dec (unread s) 0) as [He|]; [|lia].
    apply Hiff in He. done.
Qed.

Lemma is_full_false_unread (s : ring T) :
  ring_inv size_ s -> is_full size_ s = false <-> unread s < size_ - 1.
Proof.
  intros Hinv. pose proof (is_full_unread s Hinv) as Hiff.
  destruct Hinv as (_ & _ & _ & Hd).
  destruct (is_full size_ s); split; intros; try done.
  - assert (unread s = size_ - 1) by (by apply Hiff). lia.
  - destruct (Z.eq_dec (unread s) (size_ - 1)) as [He|]; [|lia].
    apply Hiff in He. done.
Qed.

Lemma slot_of_mod (s : ring T) i : slot_of size_ s i = (tail_ s + i) mod size_.
Proof. unfold slot_of. by apply mask_wrap. Qed.

Lemma init_inv : ring_inv size_ (init size_ : ring T).
Proof.
  pose proof (size_pos _ Hcap). pose proof size_lt_mod.
  unfold ring_inv, init, unread, is_size_t, wrap; simpl.
  rewrite length_replicate, Z.mod_0_l by (rewrite SIZE_MOD_eq; lia).
  rewrite SIZE_MOD_eq in *. lia.
Qed.

(** Advancing the write cursor after a store appends to the contents. *)
Lemma push_spec (s : ring T) v :
  ring_inv size_ s -> unread s < size_ - 1 ->
  let s' := pushed size_ s v in
  ring_inv size_ s' /\ unread s' = unread s + 1 /\
  contents size_ s' = contents size_ s ++ [v].
Proof.
  intros (Hlen & Hh & Ht & Hd) Hlt s'. unfold pushed in s'.
  pose proof (unread_nonneg s) as Hd0. pose proof size_lt_mod as HM.
  pose proof (size_pos _ Hcap) as HN.
  assert (Hun : unread s' = unread s + 1).
  { unfold unread, s', wrap; simpl. rewrite Zminus_mod_idemp_l.
    replace (head_ s + 1 - tail_ s) with ((head_ s - tail_ s) + 1) by lia.
    rewrite <- Zplus_mod_idemp_l. apply Z.mod_small.
    fold (wrap (head_ s - tail_ s)). fold (unread s). lia. }
  split; [|split; [done|]].
  - unfold ring_inv. rewrite Hun. repeat split; try apply wrap_range; try apply Ht;
      [|lia]. simpl. unfold store. by rewrite length_insert.
  - unfold contents. rewrite Hun, seqZ_app, fmap_app by lia.
    f_equal.
    + apply list_fmap_ext. intros k i Hi%lookup_seqZ. destruct Hi as [-> Hk].
      rewrite !slot_of_mod. simpl. unfold slot, store.
      rewrite (mask_mod _ Hcap), (head_mod_size s Hh).
      apply list_lookup_total_insert_ne. intros Heq.
      apply Z2Nat.inj in Heq; try (apply Z.mod_pos_bound; lia).
      apply (mod_offset_inj size_) in Heq; lia.
    + rewrite seqZ_cons, seqZ_nil by lia. simpl. f_equal.
      rewrite slot_of_mod. simpl. unfold slot, store.
      rewrite (mask_mod _ Hcap), (head_mod_size s Hh).
      replace (0 + unread s) with (unread s) by lia.
      apply list_lookup_total_insert_eq. rewrite Hlen.
      apply Z2Nat.inj_lt; try lia; apply Z.mod_pos_bound; lia.
Qed.

(** Advancing the read cursor removes the oldest element. *)
Lemma pop_spec (s : ring T) :
  ring_inv size_ s -> 0 < unread s ->
  let s' := popped s in
  ring_inv size_ s' /\ unread s' = unread s - 1 /\
  contents size_ s = oldest size_ s :: contents size_ s'.
Proof.
  intros (Hlen & Hh & Ht & Hd) Hlt s'. unfold popped in s'. unfold oldest.
  pose proof size_lt_mod as HM. pose proof (size_pos _ Hcap) as HN.
  assert (Hun : unread s' = unread s - 1).
  { unfold unread, s', wrap; simpl. rewrite Zminus_mod_idemp_r.
    replace (head_ s - (tail_ s + 1)) with ((head_ s - tail_ s) - 1) by lia.
    rewrite <- Zminus_mod_idemp_l. apply Z.mod_small.
    fold (wrap (head_ s - tail_ s)). fold (unread s). lia. }
  split; [|split; [done|]].
  - unfold ring_inv. rewrite Hun. repeat split; try apply wrap_range; try apply Hh;
      [done|lia].
  - unfold contents. rewrite Hun, (seqZ_cons 0 (unread s)) by lia. simpl.
    f_equal.
    + rewrite slot_of_mod, (mask_mod _ Hcap). do 2 f_equal. lia.
    + replace (Z.succ 0) with (1 + 0) by lia. rewrite <- fmap_add_seqZ.
      rewrite <- list_fmap_compose. apply list_fmap_ext. intros k i _.
      simpl. rewrite !slot_of_mod. simpl.
      rewrite <- (Zplus_mod_idemp_l (wrap _)), (wrap_mod_size _ Hcap), Zplus_mod_idemp_l.
      do 2 f_equal. lia.
Qed.

Lemma contents_length (s : ring T) :
  Z.of_nat (length (contents size_ s)) = unread s.
Proof.
  unfold contents. rewrite length_fmap, length_seqZ.
  pose proof (unread_nonneg s). lia.
Qed.

Lemma contents_lookup (s : ring T) (i : Z) :
  0 <= i < unread s ->
  contents size_ s !! Z.to_nat i = Some (slot (buff_ s) (slot_of size_ s i)).
Proof.
  intros Hi. unfold contents. rewrite list_lookup_fmap, lookup_seqZ_lt by lia.
  simpl. do 3 f_equal. lia.
Qed.
End RingFacts.

(** ** What each call computes *)

Section CallFacts.
Context {T : Type} `{!Inhabited T} (size_ : Z).

Lemma write_eq (s : ring T) v :
  RingBuffer.write size_ v s =
    if is_full size_ s then Done false s [] else Done true (pushed size_ s v) [].
Proof.
  unfold RingBuffer.write, bind, query. destruct (is_full size_ s); reflexivity.
Qed.

Lemma overwrite_eq (s : ring T) v :
  RingBuffer.overwrite size_ v s =
    Done tt (pushed size_ (if is_full size_ s then popped s else s) v) [].
Proof.
  unfold RingBuffer.overwrite, bind, query. destruct (is_full size_ s); reflexivity.
Qed.

Lemma read_eq (s : ring T) :
  RingBuffer.read size_ s =
    if is_empty size_ s then Done None s []
    else Done (Some (oldest size_ s)) (popped s) [].
Proof.
  unfold RingBuffer.read, bind, load_head, load_tail, query, is_empty. simpl.
  destruct (_ =? _); reflexivity.
Qed.

Lemma buffer_try_current_eq (s : ring T) :
  RingBuffer.try_current size_ s =
    if is_empty size_ s then Done None s [] else Done (Some (oldest size_ s)) s [].
Proof.
  unfold RingBuffer.try_current, bind, load_head, load_tail, query, is_empty. simpl.
  destruct (_ =? _); reflexivity.
Qed.

Lemma try_enqueue_eq (s : ring T) v :
  RingQueue.try_enqueue size_ v s =
    if is_full size_ s then Done false s [] else Done true (pushed size_ s v) [Head].
Proof.
  unfold RingQueue.try_enqueue, bind, load_head, load_tail, query, is_full. simpl.
  destruct (_ =? _); reflexivity.
Qed.

Lemma try_dequeue_eq (s : ring T) :
  RingQueue.try_dequeue size_ s =
    if is_empty size_ s then Done None s []
    else Done (Some (oldest size_ s)) (popped s) [Tail].
Proof.
  unfold RingQueue.try_dequeue, bind, load_head, load_tail, query, is_empty. simpl.
  destruct (_ =? _); reflexivity.
Qed.

Lemma queue_try_current_eq (s : ring T) :
  RingQueue.try_current size_ s =
    if is_empty size_ s then Done None s [] else Done (Some (oldest size_ s)) s [].
Proof.
  unfold RingQueue.try_current, bind, load_head, load_tail, query, is_empty. simpl.
  destruct (_ =? _); reflexivity.
Qed.

Lemma can_peek_eq (s : ring T) amnt :
  RingQueue.can_peek size_ amnt s =
    if amnt <? size_ then Done (amnt <? peek_distance size_ s) s [] else AssertFailed.
Proof.
  unfold RingQueue.can_peek, bind, load_head, load_tail, query, assert. simpl.
  destruct (amnt <? size_); reflexivity.
Qed.

Lemma try_peek_eq (s : ring T) amnt :
  RingQueue.try_peek size_ amnt s =
    if amnt >=? peek_distance size_ s then Done None s []
    else if amnt <? size_ then
      if Z.land (wrap (Z.land (tail_ s) (size_mask_ size_) + amnt)) (size_mask_ size_)
           <? size_
      then Done (Some (slot (buff_ s)
                  (Z.land (wrap (Z.land (tail_ s) (size_mask_ size_) + amnt))
                          (size_mask_ size_)))) s []
      else AssertFailed
    else AssertFailed.
Proof.
  unfold RingQueue.try_peek, bind, load_head, load_tail, query, assert, peek_distance.
  simpl. destruct (amnt >=? _); [reflexivity|].
  destruct (amnt <? size_); [|reflexivity]. simpl.
  destruct (_ <? size_); reflexivity.
Qed.
End CallFacts.

Section PeekFacts.
Context {T : Type} `{!Inhabited T} (size_ : Z) (Hcap : capacity_ok size_).

(** On a well-formed ring the masked distance is the number of unread
    elements, wrapped or not. *)
Lemma peek_distance_unread (s : ring T) :
  ring_inv size_ s -> peek_distance size_ s = unread s.
Proof.
  intros (_ & Hh & Ht & Hd). pose proof (unread_nonneg s) as Hd0.
  pose proof (size_pos _ Hcap) as HN. pose proof (size_lt_mod _ Hcap) as HM.
  unfold peek_distance, RingQueue.max_distance.
  rewrite !(mask_mod _ Hcap), (head_mod_size _ Hcap s Hh).
  rewrite <- Zplus_mod_idemp_l.
  pose proof (Z.mod_pos_bound (tail_ s) size_ ltac:(lia)) as Hr.
  set (r := tail_ s mod size_) in *.
  destruct (Z_lt_dec (r + unread s) size_) as [Hlt|Hge].
  - rewrite (Z.mod_small (r + unread s)) by lia.
    destruct (_ >=? _) eqn:Hc; [|lia].
    replace (r + unread s - r) with (unread s) by lia.
    apply wrap_small. unfold is_size_t. lia.
  - replace (r + unread s) with ((r + unread s - size_) + 1 * size_) by lia.
    rewrite Z_mod_plus_full, (Z.mod_small (r + unread s - size_)) by lia.
    destruct (_ >=? _) eqn:Hc; [lia|].
    rewrite (wrap_small (size_ - r)) by (unfold is_size_t; lia).
    replace (size_ - r + (r + unread s - size_)) with (unread s) by lia.
    apply wrap_small. unfold is_size_t. lia.
Qed.

(** The slot [try_peek] and [peek] read is the one [amnt] positions ahead
    of the read cursor. *)
Lemma peek_slot (s : ring T) amnt :
  Z.land (wrap (Z.land (tail_ s) (size_mask_ size_) + amnt)) (size_mask_ size_)
  = slot_of size_ s amnt.
Proof.
  rewrite (slot_of_mod _ Hcap), (mask_wrap _ Hcap), (mask_mod _ Hcap).
  apply Zplus_mod_idemp_l.
Qed.
End PeekFacts.

(** ** The two-thread system keeps the ring well formed *)

(** Splits a goal along its conjunctions and implications only. *)
Ltac split_goal := repeat (first [progress intros | progress split_and!]).

(** Unfolds the plumbing of an outcome equation and inverts it. *)
Ltac done_eq H :=
  cbv [ret bind query notify_all assert RingQueue.wake_all load_head load_tail] in H;
  simplify_eq.

Ltac ring_crush :=
  unfold ring_inv, is_size_t in *; destruct_and?; split_goal; auto; try lia.

Section SystemFacts.
Context {T : Type} `{!Inhabited T} (size_ : Z) (Hcap : capacity_ok size_).

Lemma advanced_refl x : advanced x x.
Proof. by left. Qed.

Lemma advanced_incr x : advanced x (wrap (x + 1)).
Proof. by right. Qed.

Lemma unread_incr_head (s s' : ring T) :
  head_ s' = wrap (head_ s + 1) -> tail_ s' = tail_ s ->
  unread s < SIZE_MOD - 1 -> unread s' = unread s + 1.
Proof.
  intros Hh Ht Hlt. pose proof (unread_nonneg s).
  unfold unread in *. rewrite Hh, Ht. unfold wrap in *.
  rewrite Zminus_mod_idemp_l.
  replace (head_ s + 1 - tail_ s) with ((head_ s - tail_ s) + 1) by lia.
  rewrite <- Zplus_mod_idemp_l. apply Z.mod_small. lia.
Qed.

Lemma unread_incr_tail (s s' : ring T) :
  head_ s' = head_ s -> tail_ s' = wrap (tail_ s + 1) ->
  0 < unread s -> unread s' = unread s - 1.
Proof.
  intros Hh Ht Hlt. pose proof (wrap_range (head_ s - tail_ s)) as Hr.
  unfold unread in *. rewrite Hh, Ht. unfold wrap, is_size_t in *.
  rewrite Zminus_mod_idemp_r.
  replace (head_ s - (tail_ s + 1)) with ((head_ s - tail_ s) - 1) by lia.
  rewrite <- Zminus_mod_idemp_l. apply Z.mod_small. lia.
Qed.

Lemma pushed_inv (s : ring T) v :
  ring_inv size_ s -> unread s < size_ - 1 ->
  ring_inv size_ (pushed size_ s v) /\ unread (pushed size_ s v) = unread s + 1.
Proof. intros Hi Hlt. destruct (push_spec _ Hcap s v Hi Hlt) as (? & ? & _). done. Qed.

Lemma popped_inv (s : ring T) :
  ring_inv size_ s -> 0 < unread s ->
  ring_inv size_ (popped s) /\ unread (popped s) = unread s - 1.
Proof. intros Hi Hlt. destruct (pop_spec _ Hcap s Hi Hlt) as (? & ? & _). done. Qed.

Lemma full_unread_pos (s : ring T) :
  ring_inv size_ s -> is_full size_ s = true -> 0 < unread s.
Proof.
  intros Hi Hf. apply (is_full_unread _ Hcap s Hi) in Hf.
  pose proof (size_pos _ Hcap). lia.
Qed.

(** The producer's moves *)

Lemma producer_move_refl k (s : ring T) : ring_inv size_ s -> producer_move size_ k s s.
Proof. intros Hi. unfold producer_move. ring_crush. Qed.

Lemma producer_move_pushed k (s : ring T) v :
  ring_inv size_ s -> unread s < size_ - 1 ->
  producer_move size_ k s (pushed size_ s v).
Proof.
  intros Hi Hlt. destruct (pushed_inv s v Hi Hlt) as [Hi' Hu].
  pose proof (unread_nonneg s).
  unfold producer_move. rewrite Hu. ring_crush.
Qed.

Lemma producer_move_overwrite (s : ring T) v :
  ring_inv size_ s -> is_full size_ s = true ->
  producer_move size_ Buffer s (pushed size_ (popped s) v).
Proof.
  intros Hi Hf. pose proof (full_unread_pos s Hi Hf) as Hpos.
  destruct (popped_inv s Hi Hpos) as [Hi1 Hu1].
  apply (is_full_unread _ Hcap s Hi) in Hf.
  destruct (pushed_inv (popped s) v Hi1 ltac:(lia)) as [Hi2 Hu2].
  unfold producer_move. rewrite Hu2, Hu1. ring_crush; done.
Qed.

Lemma producer_call_move k (call : call T) s r s' w :
  producer_call k call -> perform size_ call s = Done r s' w -> ring_inv size_ s ->
  producer_move size_ k s s' /\
  advanced (head_ s) (head_ s') /\ advanced (tail_ s) (tail_ s').
Proof.
  intros Hc Hp Hi.
  assert (Hsame : s' = s ->
    producer_move size_ k s s' /\
    advanced (head_ s) (head_ s') /\ advanced (tail_ s) (tail_ s')).
  { intros ->. split; [by apply producer_move_refl|]. split; apply advanced_refl. }
  assert (Hpush : forall v, is_full size_ s = false -> s' = pushed size_ s v ->
    producer_move size_ k s s' /\
    advanced (head_ s) (head_ s') /\ advanced (tail_ s) (tail_ s')).
  { intros v Hf ->. apply (is_full_false_unread _ Hcap s Hi) in Hf.
    split; [by apply producer_move_pushed|].
    split; [apply advanced_incr | apply advanced_refl]. }
  destruct k, call; simpl in Hc; try done; unfold perform, bind in Hp.
  - rewrite write_eq in Hp. destruct (is_full size_ s) eqn:Hf.
    + apply Hsame. by done_eq Hp.
    + apply (Hpush v); [done|]. by done_eq Hp.
  - rewrite overwrite_eq in Hp. destruct (is_full size_ s) eqn:Hf.
    + assert (s' = pushed size_ (popped s) v) as -> by (by done_eq Hp).
      split; [by apply producer_move_overwrite|]. split; apply advanced_incr.
    + apply (Hpush v); [done|]. by done_eq Hp.
  - apply Hsame. by done_eq Hp.
  - apply Hsame. by done_eq Hp.
  - rewrite try_enqueue_eq in Hp. destruct (is_full size_ s) eqn:Hf.
    + apply Hsame. by done_eq Hp.
    + apply (Hpush v); [done|]. by done_eq Hp.
  - apply Hsame. by done_eq Hp.
  - apply Hsame. by done_eq Hp.
  - apply Hsame. by done_eq Hp.
Qed.

Lemma producer_step_move (p p' : producer T) o s s' w :
  producer_inv size_ p s -> ring_inv size_ s ->
  producer_step size_ p s = Done (p', o) s' w ->
  producer_move size_ Queue s s' /\ producer_inv size_ p' s' /\
  advanced (head_ s) (head_ s') /\ advanced (tail_ s) (tail_ s').
Proof.
  intros Hp Hi Hs. pose proof (size_lt_mod _ Hcap) as HM.
  assert (Hsame : s' = s -> producer_inv size_ p' s ->
    producer_move size_ Queue s s' /\ producer_inv size_ p' s' /\
    advanced (head_ s) (head_ s') /\ advanced (tail_ s) (tail_ s')).
  { intros -> Hp'. split; [by apply producer_move_refl|].
    split; [done|]. split; apply advanced_refl. }
  destruct p; simpl in Hs; unfold bind, load_head, load_tail, query in Hs;
    simpl in Hs.
  - apply Hsame; by done_eq Hs.
  - apply Hsame; by done_eq Hs.
  - simpl in Hp. subst lhead. fold (is_full size_ s) in Hs.
    destruct (is_full size_ s) eqn:Hf.
    + apply Hsame; [by done_eq Hs|]. assert (p' = EnqWait v (head_ s) (tail_ s))
        as -> by (by done_eq Hs). simpl. auto.
    + apply (is_full_false_unread _ Hcap s Hi) in Hf.
      apply Hsame; [by done_eq Hs|]. assert (p' = EnqStore v (head_ s))
        as -> by (by done_eq Hs). simpl. auto.
  - destruct Hp as [-> Hp]. destruct (tail_ s =? ltail) eqn:Ht.
    + apply Hsame; [by done_eq Hs|]. assert (p' = EnqWait v (head_ s) ltail)
        as -> by (by done_eq Hs). simpl. auto.
    + apply Z.eqb_neq in Ht. destruct Hp as [Hp|Hp]; [done|].
      apply Hsame; [by done_eq Hs|]. assert (p' = EnqStore v (head_ s))
        as -> by (by done_eq Hs). simpl. auto.
  - destruct Hp as [-> Hp].
    assert (s' = Ring (store (buff_ s) (Z.land (head_ s) (size_mask_ size_)) v)
                      (head_ s) (tail_ s) /\ p' = EnqAdd) as [-> ->]
      by (by done_eq Hs).
    assert (Hi' : ring_inv size_
      (Ring (store (buff_ s) (Z.land (head_ s) (size_mask_ size_)) v)
            (head_ s) (tail_ s))).
    { unfold ring_inv, store in *; simpl. rewrite length_insert. done. }
    split.
    { unfold producer_move. split; [done|]. simpl.
      change (unread (Ring _ (head_ s) (tail_ s))) with (unread s). ring_crush. }
    split; [done|]. split; apply advanced_refl.
  - simpl in Hp.
    set (s1 := Ring (buff_ s) (wrap (head_ s + 1)) (tail_ s)).
    assert (s' = s1 /\ p' = EnqNotify) as [-> ->] by (by done_eq Hs).
    assert (Hu : unread s1 = unread s + 1).
    { apply unread_incr_head; try done. lia. }
    pose proof (unread_nonneg s). pose proof (wrap_range (head_ s + 1)).
    assert (Hi' : ring_inv size_ s1).
    { unfold ring_inv. rewrite Hu. simpl. ring_crush. }
    split.
    { unfold producer_move. rewrite Hu. split; [done|]. simpl. ring_crush. }
    split; [done|]. split; [apply advanced_incr | apply advanced_refl].
  - apply Hsame; by done_eq Hs.
Qed.

(** The consumer's moves *)

Lemma consumer_move_refl (s : ring T) : ring_inv size_ s -> consumer_move size_ s s.
Proof. intros Hi. unfold consumer_move. ring_crush. Qed.

Lemma consumer_move_popped (s : ring T) :
  ring_inv size_ s -> 0 < unread s -> consumer_move size_ s (popped s).
Proof.
  intros Hi Hlt. destruct (popped_inv s Hi Hlt) as [Hi' Hu].
  unfold consumer_move. rewrite Hu. split; [done|]. simpl. ring_crush.
Qed.

Lemma consumer_call_move k (call : call T) s r s' w :
  consumer_call k call -> perform size_ call s = Done r s' w -> ring_inv size_ s ->
  consumer_move size_ s s' /\
  advanced (head_ s) (head_ s') /\ advanced (tail_ s) (tail_ s').
Proof.
  intros Hc Hp Hi.
  assert (Hsame : s' = s ->
    consumer_move size_ s s' /\
    advanced (head_ s) (head_ s') /\ advanced (tail_ s) (tail_ s')).
  { intros ->. split; [by apply consumer_move_refl|]. split; apply advanced_refl. }
  assert (Hpop : is_empty size_ s = false -> s' = popped s ->
    consumer_move size_ s s' /\
    advanced (head_ s) (head_ s') /\ advanced (tail_ s) (tail_ s')).
  { intros He ->. apply (is_empty_false_unread _ Hcap s Hi) in He.
    split; [by apply consumer_move_popped|].
    split; [apply advanced_refl | apply advanced_incr]. }
  destruct k, call; simpl in Hc; try done; unfold perform, bind in Hp.
  - rewrite read_eq in Hp. destruct (is_empty size_ s) eqn:He.
    + apply Hsame. by done_eq Hp.
    + apply Hpop; [done|]. by done_eq Hp.
  - rewrite buffer_try_current_eq in Hp.
    apply Hsame. destruct (is_empty size_ s); by done_eq Hp.
  - apply Hsame. by done_eq Hp.
  - apply Hsame. by done_eq Hp.
  - rewrite try_dequeue_eq in Hp. destruct (is_empty size_ s) eqn:He.
    + apply Hsame. by done_eq Hp.
    + apply Hpop; [done|]. by done_eq Hp.
  - rewrite queue_try_current_eq in Hp.
    apply Hsame. destruct (is_empty size_ s); by done_eq Hp.
  - rewrite can_peek_eq in Hp. apply Hsame. destruct (amnt <? size_); by done_eq Hp.
  - rewrite try_peek_eq in Hp. apply Hsame.
    repeat (match type of Hp with context [if ?b then _ else _] => destruct b end);
      by done_eq Hp.
  - apply Hsame. by done_eq Hp.
  - apply Hsame. by done_eq Hp.
  - apply Hsame. by done_eq Hp.
Qed.
Lemma consumer_step_move k (c c' : consumer T) o s s' w :
  consumer_inv size_ c s -> ring_inv size_ s ->
  consumer_step size_ c s = Done (c', o) s' w ->
  consumer_move size_ s s' /\ consumer_inv size_ c' s' /\
  advanced (head_ s) (head_ s') /\ advanced (tail_ s) (tail_ s') /\
  (consumer_allowed k c -> consumer_allowed k c').
Proof.
  intros Hc Hi Hs. pose proof (size_lt_mod _ Hcap) as HM.
  assert (Hsame : s' = s -> consumer_inv size_ c' s ->
    (consumer_allowed k c -> consumer_allowed k c') ->
    consumer_move size_ s s' /\ consumer_inv size_ c' s' /\
    advanced (head_ s) (head_ s') /\ advanced (tail_ s) (tail_ s') /\
    (consumer_allowed k c -> consumer_allowed k c')).
  { intros -> Hc' Hk. split; [by apply consumer_move_refl|].
    split; [done|]. split; [apply advanced_refl|]. split; [apply advanced_refl|done]. }
  destruct c; simpl in Hs; unfold bind, load_head, load_tail, read_slot, query in Hs;
    simpl in Hs.
  - (* idle *) apply Hsame; by done_eq Hs.
  - (* dequeue: load head_ *)
    assert (c' = Deq1 (head_ s)) as -> by (by done_eq Hs).
    apply Hsame; [by done_eq Hs| simpl; auto | by destruct k].
  - (* dequeue: load tail_, test *)
    destruct (Z.land lhead _ =? _) eqn:He.
    + assert (c' = DeqWait lhead) as -> by (by done_eq Hs).
      apply Hsame; [by done_eq Hs| done | by destruct k].
    + assert (c' = DeqRead) as -> by (by done_eq Hs).
      apply Hsame; [by done_eq Hs| | by destruct k]. simpl.
      destruct Hc as [Hc|Hc]; [|done]. subst lhead.
      by apply (is_empty_false_unread _ Hcap s Hi).
  - (* dequeue: wait *)
    destruct (head_ s =? lhead) eqn:Hh.
    + assert (c' = DeqWait lhead) as -> by (by done_eq Hs).
      apply Hsame; [by done_eq Hs| done | by destruct k].
    + assert (c' = DeqRead) as -> by (by done_eq Hs).
      apply Z.eqb_neq in Hh.
      apply Hsame; [by done_eq Hs| | by destruct k]. simpl.
      destruct Hc as [Hc|Hc]; done.
  - (* dequeue: read the slot *)
    assert (exists val, c' = DeqAdd val) as [val ->] by (eexists; by done_eq Hs).
    apply Hsame; [by done_eq Hs| done | by destruct k].
  - (* dequeue: advance tail_ *)
    assert (s' = popped s /\ c' = DeqNotify val) as [-> ->] by (by done_eq Hs).
    simpl in Hc. split; [by apply consumer_move_popped|].
    split; [done|]. split; [apply advanced_refl|].
    split; [apply advanced_incr|by destruct k].
  - (* dequeue: notify *)
    assert (c' = CIdle) as -> by (by done_eq Hs).
    apply Hsame; [by done_eq Hs| done | by destruct k].
  - (* current: load head_ *)
    assert (c' = Cur1 (head_ s)) as -> by (by done_eq Hs).
    apply Hsame; [by done_eq Hs| simpl; auto | by destruct k].
  - (* current: load tail_, test *)
    destruct (Z.land lhead _ =? _) eqn:He.
    + assert (c' = CurWait lhead (tail_ s)) as -> by (by done_eq Hs).
      apply Hsame; [by done_eq Hs| done | by destruct k].
    + assert (c' = CurRead (tail_ s)) as -> by (by done_eq Hs).
      apply Hsame; [by done_eq Hs| | by destruct k]. simpl.
      destruct Hc as [Hc|Hc]; [|done]. subst lhead.
      by apply (is_empty_false_unread _ Hcap s Hi).
  - (* current: wait *)
    destruct (head_ s =? lhead) eqn:Hh.
    + assert (c' = CurWait lhead ltail) as -> by (by done_eq Hs).
      apply Hsame; [by done_eq Hs| done | by destruct k].
    + assert (c' = CurRead ltail) as -> by (by done_eq Hs).
      apply Z.eqb_neq in Hh.
      apply Hsame; [by done_eq Hs| | by destruct k]. simpl.
      destruct Hc as [Hc|Hc]; done.
  - (* current: read the slot *)
    assert (c' = CIdle) as -> by (by done_eq Hs).
    apply Hsame; [by done_eq Hs| done | by destruct k].
  - (* peek: load tail_ *)
    assert (exists lt, c' = PeekCan0 amnt lt) as [lt ->] by (eexists; by done_eq Hs).
    apply Hsame; [by done_eq Hs| done | by destruct k].
  - (* can_peek: load head_ *)
    assert (c' = PeekCan1 amnt ltail (Z.land (head_ s) (size_mask_ size_))) as ->
      by (by done_eq Hs).
    apply Hsame; [by done_eq Hs| | by destruct k]. simpl. split; [done|].
    fold (peek_distance size_ s). rewrite (peek_distance_unread _ Hcap s Hi). lia.
  - (* can_peek: load tail_, assert, compare *)
    destruct Hc as [Ha Hd]. unfold assert in Hs.
    destruct (amnt <? size_) eqn:Hlt; [|done]. apply Z.ltb_lt in Hlt.
    destruct (amnt <? RingQueue.max_distance _ _ _) eqn:Hcmp.
    + assert (c' = PeekRead amnt ltail) as -> by (by done_eq Hs).
      apply Z.ltb_lt in Hcmp.
      apply Hsame; [by done_eq Hs| | by destruct k]. simpl.
      unfold is_size_t in Ha. lia.
    + assert (c' = PeekLoad amnt ltail) as -> by (by done_eq Hs).
      apply Hsame; [by done_eq Hs| | by destruct k]. simpl.
      unfold is_size_t in Ha. lia.
  - (* peek: load head_ for the wait *)
    assert (c' = PeekWait amnt ltail (head_ s)) as -> by (by done_eq Hs).
    apply Hsame; [by done_eq Hs| done | by destruct k].
  - (* peek: wait *)
    destruct (head_ s =? h) eqn:Hh.
    + assert (c' = PeekWait amnt ltail h) as -> by (by done_eq Hs).
      apply Hsame; [by done_eq Hs| done | by destruct k].
    + assert (c' = PeekCan0 amnt ltail) as -> by (by done_eq Hs).
      apply Hsame; [by done_eq Hs| | by destruct k]. simpl in *.
      unfold is_size_t. lia.
  - (* peek: read the slot *)
    assert (c' = CIdle) as -> by (by done_eq Hs).
    apply Hsame; [by done_eq Hs| done | by destruct k].
Qed.

(** Each thread's knowledge survives the other thread's moves. *)

Lemma consumer_inv_stable k (c : consumer T) s s' :
  consumer_inv size_ c s -> consumer_allowed k c -> producer_move size_ k s s' ->
  consumer_inv size_ c s'.
Proof.
  intros Hc Hk (Hi & Hh & Hpos & Hq).
  destruct c; simpl in *; try done;
    try (destruct Hc as [Hc|Hc]; [destruct Hh as [Hh|Hh]; [left; congruence | by right]
                                 | right; by apply Hpos]);
    try (by apply Hpos);
    destruct k; try done; destruct (Hq eq_refl) as [Ht Hu].
  - destruct Hc as [Ha Hd]. split; [done|]. rewrite Ht. lia.
  - lia.
Qed.

Lemma producer_inv_stable (p : producer T) s s' :
  producer_inv size_ p s -> consumer_move size_ s s' -> producer_inv size_ p s'.
Proof.
  intros Hp (Hi & Hh & Ht & Hu).
  destruct p; simpl in *; try done.
  - congruence.
  - destruct Hp as [-> Hp]. split; [done|].
    destruct Hp as [Hp|Hp]; [|right; lia]. destruct Ht as [Ht|Ht]; [|by right].
    left. congruence.
  - destruct Hp as [-> Hp]. split; [done|]. lia.
  - lia.
Qed.

Lemma sys_inv_init k : sys_inv size_ k (Config (init size_ : ring T) PIdle CIdle).
Proof.
  unfold sys_inv; simpl. split; [by apply init_inv|]. by destruct k.
Qed.

Lemma sys_step_inv k (c c' : config T) :
  sys_inv size_ k c -> sys_step size_ k c c' ->
  sys_inv size_ k c' /\
  advanced (head_ (shared c)) (head_ (shared c')) /\
  advanced (tail_ (shared c)) (tail_ (shared c')).
Proof.
  intros (Hi & Hp & Hc & Hkp & Hkc) Hstep.
  destruct Hstep as [c call r s' w Hidle Hcall Hperf
                    |c v Hq Hidle
                    |c p' o s' w Hrun Hs
                    |c call r s' w Hidle Hcall Hperf
                    |c e Hidle He
                    |c c' o s' w Hrun Hs]; simpl.
  - destruct (producer_call_move k call _ _ _ _ Hcall Hperf Hi) as (Hm & Hah & Hat).
    split; [|done]. unfold sys_inv; simpl. split; [apply Hm|].
    split; [done|]. split; [by eapply consumer_inv_stable|]. split; [by destruct k|done].
  - subst k. split; [|split; apply advanced_refl]. unfold sys_inv; simpl. auto.
  - assert (k = Queue) as -> by (destruct k, (prod c); done).
    destruct (producer_step_move _ _ _ _ _ _ Hp Hi Hs) as (Hm & Hp' & Hah & Hat).
    split; [|done]. unfold sys_inv; simpl. split; [apply Hm|].
    split; [done|]. split; [by eapply consumer_inv_stable|done].
  - destruct (consumer_call_move k call _ _ _ _ Hcall Hperf Hi) as (Hm & Hah & Hat).
    split; [|done]. unfold sys_inv; simpl. split; [apply Hm|].
    split; [by eapply producer_inv_stable|]. split; [done|]. split; [done|by destruct k].
  - split; [|split; apply advanced_refl]. unfold sys_inv; simpl.
    split; [done|]. split; [done|]. split; [|split; [done|]]; by destruct k, e.
  - destruct (consumer_step_move k _ _ _ _ _ _ Hc Hi Hs) as (Hm & Hc' & Hah & Hat & Hk').
    split; [|done]. unfold sys_inv; simpl. split; [apply Hm|].
    split; [by eapply producer_inv_stable|]. split; [done|]. split; [done|by apply Hk'].
Qed.

Lemma reachable_inv k (c : config T) : reachable size_ k c -> sys_inv size_ k c.
Proof.
  induction 1 as [|c c' _ IH Hstep]; [apply sys_inv_init|].
  by apply (sys_step_inv k c c').
Qed.
End SystemFacts.

(** ** Failure of the calls that never park *)

(** C4: on a full ring [write] and [try_enqueue] return [false], and on an
    empty ring [read], [try_dequeue], both [try_current] and [try_peek]
    return an empty result; in each case the ring that is left is the ring
    the call found (same array, same cursors) and nothing is notified. *)
Theorem failure_leaves_ring_untouched {T : Type} `{!Inhabited T}
    (size_ : Z) (sf se : ring T) (v : T) (amnt : Z) :
  is_full size_ sf = true -> is_empty size_ se = true -> 0 <= amnt ->
  (RingBuffer.write size_ v sf = Done false sf [] /\
   RingQueue.try_enqueue size_ v sf = Done false sf []) /\
  (RingBuffer.read size_ se = Done None se [] /\
   RingQueue.try_dequeue size_ se = Done None se [] /\
   RingBuffer.try_current size_ se = Done None se [] /\
   RingQueue.try_current size_ se = Done None se [] /\
   RingQueue.try_peek size_ amnt se = Done None se []).
Proof.
  intros Hf He Ha. split.
  - by rewrite write_eq, try_enqueue_eq, Hf.
  - rewrite read_eq, try_dequeue_eq, buffer_try_current_eq, queue_try_current_eq, He.
    split_and!; try done.
    rewrite try_peek_eq.
    assert (Hd : peek_distance size_ se = 0).
    { unfold is_empty in He. apply Z.eqb_eq in He.
      unfold peek_distance, RingQueue.max_distance. rewrite He.
      destruct (_ >=? _) eqn:Hc; [|lia]. by rewrite Z.sub_diag. }
    rewrite Hd. destruct (amnt >=? 0) eqn:Hc; [done|lia].
Qed.

Lemma failure_leaves_ring_untouched_witness :
  let sf : ring Z := Ring [1; 2; 3; 0] 3 0 in
  let se : ring Z := init 4 in
  (RingBuffer.write 4 7 sf = Done false sf [] /\
   RingQueue.try_enqueue 4 7 sf = Done false sf []) /\
  (RingBuffer.read 4 se = Done None se [] /\
   RingQueue.try_dequeue 4 se = Done None se [] /\
   RingBuffer.try_current 4 se = Done None se [] /\
   RingQueue.try_current 4 se = Done None se [] /\
   RingQueue.try_peek 4 2 se = Done None se []).
Proof.
  intros sf se.
  apply (failure_leaves_ring_untouched 4 sf se 7 2); [reflexivity|reflexivity|lia].
Defined.

(** ** [read] and [try_dequeue] *)

(** C10: on the same array and cursors, [RingBuffer::read] and
    [RingQueue::try_dequeue] return the same result (empty on an empty ring,
    otherwise the value in the slot of the masked read cursor) and leave the
    same ring; [try_dequeue] also notifies the waiters of the read cursor
    when it returns a value, [read] notifies nobody. *)
Theorem read_try_dequeue_agree {T : Type} `{!Inhabited T} (size_ : Z) (s : ring T) :
  let res := if is_empty size_ s then None else Some (oldest size_ s) in
  let s' := if is_empty size_ s then s else popped s in
  RingBuffer.read size_ s = Done res s' [] /\
  RingQueue.try_dequeue size_ s =
    Done res s' (if is_empty size_ s then [] else [Tail]).
Proof.
  simpl. rewrite read_eq, try_dequeue_eq. by destruct (is_empty size_ s).
Qed.

(** ** Peeking *)

Section PeekSpec.
Context {T : Type} `{!Inhabited T} (size_ : Z) (Hcap : capacity_ok size_).

Lemma peek_distance_lt (s : ring T) : 0 <= peek_distance size_ s < size_.
Proof.
  pose proof (size_lt_mod _ Hcap) as HM.
  pose proof (mask_range _ Hcap (head_ s)) as Hh.
  pose proof (mask_range _ Hcap (tail_ s)) as Ht.
  unfold peek_distance, RingQueue.max_distance.
  destruct (_ >=? _) eqn:Hc.
  - rewrite wrap_small by (unfold is_size_t; lia). lia.
  - rewrite (wrap_small (size_ - _)) by (unfold is_size_t; lia).
    rewrite wrap_small by (unfold is_size_t; lia). lia.
Qed.

(** An offset beyond the capacity never reaches the asserts of [try_peek]:
    the range test before them already answers. *)
Lemma try_peek_beyond (s : ring T) amnt :
  size_ <= amnt -> RingQueue.try_peek size_ amnt s = Done None s [].
Proof.
  intros Ha. rewrite try_peek_eq. pose proof (peek_distance_lt s).
  destruct (amnt >=? _) eqn:Hc; [done|lia].
Qed.

Lemma can_peek_beyond (s : ring T) amnt :
  size_ <= amnt -> RingQueue.can_peek size_ amnt s = AssertFailed.
Proof.
  intros Ha. rewrite can_peek_eq. destruct (amnt <? size_) eqn:Hc; [lia|done].
Qed.

Lemma peek_beyond (s : ring T) amnt :
  size_ <= amnt -> consume size_ 3 (Peek0 amnt) s = Failed.
Proof.
  intros Ha. simpl. unfold bind, load_head, load_tail, query, assert; simpl.
  destruct (amnt <? size_) eqn:Hc; [lia|done].
Qed.

Lemma can_peek_inv (s : ring T) amnt :
  ring_inv size_ s -> 0 <= amnt < size_ ->
  RingQueue.can_peek size_ amnt s = Done (bool_decide (amnt + 1 <= unread s)) s [].
Proof.
  intros Hi Ha. rewrite can_peek_eq, (peek_distance_unread _ Hcap s Hi).
  destruct (amnt <? size_) eqn:Hc; [|lia]. do 2 f_equal.
  case_bool_decide; lia.
Qed.

Lemma try_peek_inv (s : ring T) amnt :
  ring_inv size_ s -> 0 <= amnt ->
  RingQueue.try_peek size_ amnt s =
    Done (if bool_decide (amnt + 1 <= unread s)
          then Some (slot (buff_ s) (slot_of size_ s amnt)) else None) s [].
Proof.
  intros Hi Ha. rewrite try_peek_eq, (peek_distance_unread _ Hcap s Hi).
  rewrite (peek_slot _ Hcap). pose proof (mask_range _ Hcap (wrap (tail_ s + amnt))).
  destruct Hi as (_ & _ & _ & Hd).
  case_bool_decide; destruct (amnt >=? unread s) eqn:Hc; try lia; [|done].
  destruct (amnt <? size_) eqn:Hc1; [|lia].
  unfold slot_of. by rewrite (proj2 (Z.ltb_lt _ _)) by lia.
Qed.
End PeekSpec.

(** ** Sequences of calls *)

Lemma bind_done {T A B} (m : M T A) (k : A -> M T B) s b s2 w :
  bind m k s = Done b s2 w ->
  exists a s1 w1 w2, m s = Done a s1 w1 /\ k a s1 = Done b s2 w2 /\ w = w1 ++ w2.
Proof.
  unfold bind. destruct (m s) as [a s1 w1|]; [|done].
  destruct (k a s1) as [b' s2' w2|] eqn:Hk; [|done].
  intros [= -> -> <-]. by exists a, s1, w1, w2.
Qed.

Lemma capacity_ok_2 : capacity_ok 2.
Proof. by split_and!. Qed.

Lemma capacity_ok_4 : capacity_ok 4.
Proof. by split_and!. Qed.

Section ExecFacts.
Context {T : Type} `{!Inhabited T} (size_ : Z).

Lemma exec_cons (c : call T) cs s rs s' w :
  exec size_ (c :: cs) s = Done rs s' w ->
  exists r rs' s1 w1 w2,
    perform size_ c s = Done r s1 w1 /\ exec size_ cs s1 = Done rs' s' w2 /\
    rs = r :: rs' /\ w = w1 ++ w2.
Proof.
  simpl. intros (r & s1 & w1 & w2 & Hp & Hk & ->)%bind_done.
  apply bind_done in Hk as (rs' & s2 & w3 & w4 & He & Hr & ->).
  cbv [ret] in Hr. injection Hr as <- <- <-.
  exists r, rs', s1, w1, w3. by rewrite app_nil_r.
Qed.

(** Calls made while no parking call is in progress lead to reachable
    configurations. *)
Lemma reachable_exec k (cs : list (call T)) :
  forall s rs s' w,
    reachable size_ k (Config s PIdle CIdle) -> Forall (any_call k) cs ->
    exec size_ cs s = Done rs s' w ->
    reachable size_ k (Config s' PIdle CIdle).
Proof.
  induction cs as [|c cs IH]; intros s rs s' w Hr Hall He.
  - cbv [exec ret] in He. by simplify_eq.
  - apply exec_cons in He as (r & rs' & s1 & w1 & w2 & Hp & He & _ & _).
    apply Forall_cons_1 in Hall as [Hc Hall].
    apply (IH s1 rs' s' w2); [|done|done].
    apply (reachable_step _ _ (Config s PIdle CIdle)); [done|].
    destruct Hc as [Hc|Hc].
    + by apply (producer_calls size_ k (Config s PIdle CIdle) c r s1 w1).
    + by apply (consumer_calls size_ k (Config s PIdle CIdle) c r s1 w1).
Qed.
End ExecFacts.

Section PeekClaims.
Context {T : Type} `{!Inhabited T} (size_ : Z) (Hcap : capacity_ok size_).

Lemma available_unread (s : ring T) :
  ring_inv size_ s -> available size_ s = unread s.
Proof.
  intros Hi. rewrite <- (peek_distance_unread _ Hcap s Hi).
  pose proof (size_lt_mod _ Hcap) as HM.
  pose proof (mask_range _ Hcap (head_ s)) as Hh.
  pose proof (mask_range _ Hcap (tail_ s)) as Ht.
  unfold available, peek_distance, RingQueue.max_distance.
  destruct (_ >=? _) eqn:Hc.
  - by rewrite wrap_small by (unfold is_size_t; lia).
  - rewrite (wrap_small (size_ - _)) by (unfold is_size_t; lia).
    by rewrite wrap_small by (unfold is_size_t; lia).
Qed.

(** C5: on a reachable queue and for [amnt] below the capacity,
    [can_peek(amnt)] is true exactly when [amnt + 1] unread elements are
    available, the available count being the wrap-aware distance of the
    masked cursors, which is the number of unread elements; so it is true
    for [amnt = available - 1] and false for [amnt = available]. *)
Theorem can_peek_counts_available (c : config T) (amnt : Z) :
  reachable size_ Queue c -> 0 <= amnt < size_ ->
  let s := shared c in
  RingQueue.can_peek size_ amnt s
    = Done (bool_decide (amnt + 1 <= available size_ s)) s [] /\
  available size_ s = Z.of_nat (length (contents size_ s)) /\
  (0 < available size_ s ->
   RingQueue.can_peek size_ (available size_ s - 1) s = Done true s []) /\
  RingQueue.can_peek size_ (available size_ s) s = Done false s [].
Proof.
  intros Hr Ha s. destruct (reachable_inv _ Hcap _ _ Hr) as (Hi & _). fold s in Hi.
  pose proof (unread_nonneg s) as Hu.
  assert (Hd : unread s <= size_ - 1) by apply Hi.
  rewrite (available_unread s Hi). split_and!.
  - by apply can_peek_inv.
  - by rewrite contents_length.
  - intros Hpos. rewrite can_peek_inv by (done || lia).
    by rewrite bool_decide_eq_true_2 by lia.
  - rewrite can_peek_inv by (done || lia).
    by rewrite bool_decide_eq_false_2 by lia.
Qed.

(** C6: on a reachable queue, [try_peek(amnt)] returns the unread element
    [amnt] positions after the oldest one, read from the slot of the masked
    cursor sum, when at least [amnt + 1] elements are unread, and an empty
    result otherwise; offset 0 is what [try_dequeue] would return; the ring
    is left as it was found. *)
Theorem try_peek_looks_ahead (c : config T) (amnt : Z) :
  reachable size_ Queue c -> 0 <= amnt ->
  let s := shared c in
  RingQueue.try_peek size_ amnt s = Done (contents size_ s !! Z.to_nat amnt) s [] /\
  (amnt + 1 <= unread s ->
   contents size_ s !! Z.to_nat amnt = Some (slot (buff_ s) (slot_of size_ s amnt))) /\
  (unread s < amnt + 1 -> contents size_ s !! Z.to_nat amnt = None) /\
  (exists s' w,
     RingQueue.try_dequeue size_ s = Done (contents size_ s !! Z.to_nat 0) s' w).
Proof.
  intros Hr Ha s. destruct (reachable_inv _ Hcap _ _ Hr) as (Hi & _). fold s in Hi.
  pose proof (unread_nonneg s) as Hu.
  assert (Hsome : forall i, 0 <= i -> i + 1 <= unread s ->
    contents size_ s !! Z.to_nat i = Some (slot (buff_ s) (slot_of size_ s i))).
  { intros i Hi0 Hi1. apply contents_lookup. lia. }
  assert (Hnone : forall i, 0 <= i -> unread s < i + 1 ->
    contents size_ s !! Z.to_nat i = None).
  { intros i Hi0 Hi1. apply lookup_ge_None.
    pose proof (contents_length size_ s). lia. }
  split_and!; auto.
  - rewrite (try_peek_inv _ Hcap s amnt Hi Ha). case_bool_decide.
    + by rewrite Hsome.
    + by rewrite Hnone by lia.
  - rewrite try_dequeue_eq. destruct (is_empty size_ s) eqn:He.
    + apply (is_empty_unread _ Hcap s Hi) in He.
      rewrite Hnone by lia. by eexists _, _.
    + apply (is_empty_false_unread _ Hcap s Hi) in He.
      rewrite Hsome by lia. eexists _, _. do 3 f_equal.
      unfold oldest. f_equal. rewrite (slot_of_mod _ Hcap), (mask_mod _ Hcap).
      f_equal. lia.
Qed.
End PeekClaims.

(** A queue of capacity 4 after [try_enqueue(1)], [try_enqueue(2)],
    [try_enqueue(3)]. *)
Lemma reachable_three :
  reachable 4 Queue (Config (Ring [1; 2; 3; 0] 3 0) PIdle CIdle).
Proof.
  apply (reachable_exec 4 Queue [TryEnqueue 1; TryEnqueue 2; TryEnqueue 3]
           (init 4) [RBool true; RBool true; RBool true] _ [Head; Head; Head]).
  - apply reachable_init.
  - repeat constructor.
  - reflexivity.
Qed.

Lemma can_peek_counts_available_witness :
  let s : ring Z := Ring [1; 2; 3; 0] 3 0 in
  RingQueue.can_peek 4 2 s = Done (bool_decide (2 + 1 <= available 4 s)) s [] /\
  available 4 s = Z.of_nat (length (contents 4 s)) /\
  (0 < available 4 s -> RingQueue.can_peek 4 (available 4 s - 1) s = Done true s []) /\
  RingQueue.can_peek 4 (available 4 s) s = Done false s [].
Proof.
  apply (can_peek_counts_available 4 capacity_ok_4
           (Config (Ring [1; 2; 3; 0] 3 0) PIdle CIdle) 2 reachable_three).
  lia.
Defined.

Lemma try_peek_looks_ahead_witness :
  let s : ring Z := Ring [1; 2; 3; 0] 3 0 in
  RingQueue.try_peek 4 1 s = Done (contents 4 s !! Z.to_nat 1) s [] /\
  (1 + 1 <= unread s ->
   contents 4 s !! Z.to_nat 1 = Some (slot (buff_ s) (slot_of 4 s 1))) /\
  (unread s < 1 + 1 -> contents 4 s !! Z.to_nat 1 = None) /\
  (exists s' w, RingQueue.try_dequeue 4 s = Done (contents 4 s !! Z.to_nat 0) s' w).
Proof.
  apply (try_peek_looks_ahead 4 capacity_ok_4
           (Config (Ring [1; 2; 3; 0] 3 0) PIdle CIdle) 1 reachable_three).
  lia.
Defined.

(** ** First in, first out *)

Section Fifo.
Context {T : Type} `{!Inhabited T} (size_ : Z) (Hcap : capacity_ok size_).

Lemma exec_cons_done (c : call T) cs s r s1 w1 rs s' w2 :
  perform size_ c s = Done r s1 w1 -> exec size_ cs s1 = Done rs s' w2 ->
  exec size_ (c :: cs) s = Done (r :: rs) s' (w1 ++ w2).
Proof.
  intros Hp He. simpl. unfold bind at 1. rewrite Hp. unfold bind at 1. rewrite He.
  cbv [ret]. by rewrite app_nil_r.
Qed.

Lemma perform_write (s : ring T) v :
  perform size_ (Write v) s =
    if is_full size_ s then Done (RBool false) s []
    else Done (RBool true) (pushed size_ s v) [].
Proof. unfold perform, bind. rewrite write_eq. by destruct (is_full size_ s). Qed.

Lemma perform_read (s : ring T) :
  perform size_ Read s =
    if is_empty size_ s then Done (ROpt None) s []
    else Done (ROpt (Some (oldest size_ s))) (popped s) [].
Proof. unfold perform, bind. rewrite read_eq. by destruct (is_empty size_ s). Qed.

Lemma accepted_cons (c : call T) r cs rs :
  accepted (c :: cs) (r :: rs) =
    match c, r with Write v, RBool true => [v] | _, _ => [] end ++ accepted cs rs.
Proof. unfold accepted. simpl. by destruct c, r as [[]| | |]. Qed.

Lemma returned_cons (r : reply T) rs :
  returned (r :: rs) =
    match r with ROpt (Some v) => [v] | _ => [] end ++ returned rs.
Proof. unfold returned. simpl. by destruct r as [|[]| |]. Qed.

Lemma written_cons (c : call T) cs :
  written (c :: cs) = match c with Write v => [v] | _ => [] end ++ written cs.
Proof. unfold written. simpl. by destruct c. Qed.

(** What was unread plus what the writes stored is what the reads returned
    plus what is still unread, in this order. *)
Lemma exec_fifo (cs : list (call T)) :
  forall s, ring_inv size_ s -> Forall write_or_read cs ->
  exists rs s' w,
    exec size_ cs s = Done rs s' w /\ ring_inv size_ s' /\
    contents size_ s ++ accepted cs rs = returned rs ++ contents size_ s' /\
    (respects_capacity size_ cs s -> accepted cs rs = written cs).
Proof.
  induction cs as [|c cs IH]; intros s Hi Hall.
  - exists [], s, []. split_and!; try done.
    unfold accepted, returned. simpl. by rewrite app_nil_r.
  - apply Forall_cons_1 in Hall as [Hc Hall]. destruct c; try done.
    + (* write *)
      destruct (is_full size_ s) eqn:Hf.
      * destruct (IH s Hi Hall) as (rs & s' & w & He & Hi' & Heq & Hcap').
        exists (RBool false :: rs), s', ([] ++ w).
        rewrite accepted_cons, returned_cons, written_cons. split_and!; try done.
        -- eapply exec_cons_done; [|done]. by rewrite perform_write, Hf.
        -- simpl. intros [? _]. congruence.
      * pose proof Hf as Hlt. apply (is_full_false_unread _ Hcap s Hi) in Hlt.
        destruct (push_spec _ Hcap s v Hi Hlt) as (Hi1 & _ & Hc1).
        destruct (IH _ Hi1 Hall) as (rs & s' & w & He & Hi' & Heq & Hcap').
        exists (RBool true :: rs), s', ([] ++ w).
        rewrite accepted_cons, returned_cons, written_cons. split_and!; try done.
        -- eapply exec_cons_done; [|done]. by rewrite perform_write, Hf.
        -- simpl. rewrite <- Heq, Hc1, <- app_assoc. done.
        -- cbn [respects_capacity app]. rewrite perform_write, Hf. intros [_ Hresp].
           f_equal. by apply Hcap'.
    + (* read *)
      destruct (is_empty size_ s) eqn:Hem.
      * destruct (IH s Hi Hall) as (rs & s' & w & He & Hi' & Heq & Hcap').
        exists (ROpt None :: rs), s', ([] ++ w).
        rewrite accepted_cons, returned_cons, written_cons. split_and!; try done.
        -- eapply exec_cons_done; [|done]. by rewrite perform_read, Hem.
        -- cbn [respects_capacity app]. rewrite perform_read, Hem. intros [_ Hresp]. by apply Hcap'.
      * pose proof Hem as Hpos. apply (is_empty_false_unread _ Hcap s Hi) in Hpos.
        destruct (pop_spec _ Hcap s Hi Hpos) as (Hi1 & _ & Hc1).
        destruct (IH _ Hi1 Hall) as (rs & s' & w & He & Hi' & Heq & Hcap').
        exists (ROpt (Some (oldest size_ s)) :: rs), s', ([] ++ w).
        rewrite accepted_cons, returned_cons, written_cons. split_and!; try done.
        -- eapply exec_cons_done; [|done]. by rewrite perform_read, Hem.
        -- simpl. rewrite Hc1. simpl. by rewrite <- Heq.
        -- cbn [respects_capacity app]. rewrite perform_read, Hem. intros [_ Hresp]. by apply Hcap'.
Qed.

(** Reading until the ring is empty returns what was unread, oldest first. *)
Lemma exec_drain (n : nat) :
  forall s : ring T, ring_inv size_ s -> unread s = Z.of_nat n ->
  exists s' w,
    exec size_ (replicate n Read) s = Done (ROpt ∘ Some <$> contents size_ s) s' w /\
    contents size_ s' = [].
Proof.
  induction n as [|n IH]; intros s Hi Hu.
  - assert (Hnil : contents size_ s = []).
    { unfold contents. rewrite Hu. done. }
    exists s, []. by rewrite Hnil.
  - assert (Hpos : 0 < unread s) by lia.
    destruct (pop_spec _ Hcap s Hi Hpos) as (Hi1 & Hu1 & Hc1).
    destruct (IH _ Hi1 ltac:(lia)) as (s' & w & He & Hnil).
    exists s', ([] ++ w). split; [|done]. rewrite Hc1. simpl replicate.
    rewrite fmap_cons. eapply exec_cons_done; [|done].
    rewrite perform_read.
    by rewrite (proj2 (is_empty_false_unread _ Hcap s Hi) Hpos).
Qed.

(** Writes into free room all succeed and append to the contents. *)
Lemma exec_writes (vs : list T) :
  forall s, ring_inv size_ s -> unread s + Z.of_nat (length vs) <= size_ - 1 ->
  exists s' w,
    exec size_ (Write <$> vs) s = Done (replicate (length vs) (RBool true)) s' w /\
    ring_inv size_ s' /\ contents size_ s' = contents size_ s ++ vs /\
    unread s' = unread s + Z.of_nat (length vs).
Proof.
  induction vs as [|v vs IH]; intros s Hi Hroom.
  - exists s, []. split_and!; try done; [by rewrite app_nil_r|simpl; lia].
  - simpl length in *.
    destruct (push_spec _ Hcap s v Hi ltac:(lia)) as (Hi1 & Hu1 & Hc1).
    destruct (IH _ Hi1 ltac:(lia)) as (s' & w & He & Hi' & Hc' & Hu').
    exists s', ([] ++ w). split_and!; try done.
    + rewrite fmap_cons. simpl replicate. eapply exec_cons_done; [|done].
      rewrite perform_write.
      by rewrite (proj2 (is_full_false_unread _ Hcap s Hi)) by lia.
    + by rewrite Hc', Hc1, <- app_assoc.
    + lia.
Qed.

(** C1: in a sequence of [write] and [read] calls on a fresh overwrite
    buffer in which no [write] is attempted on a full buffer, every [write]
    succeeds, the values the [read] calls return are the first values written,
    in the order written, the values not yet returned are exactly the unread
    contents, and reading on returns those, each once. *)
Theorem write_read_fifo (cs : list (call T)) :
  Forall write_or_read cs -> respects_capacity size_ cs (init size_) ->
  exists rs s w,
    exec size_ cs (init size_) = Done rs s w /\
    accepted cs rs = written cs /\
    written cs = returned rs ++ contents size_ s /\
    exists s' w',
      exec size_ (replicate (length (contents size_ s)) Read) s
        = Done (ROpt ∘ Some <$> contents size_ s) s' w' /\
      contents size_ s' = [].
Proof.
  intros Hall Hresp.
  destruct (exec_fifo cs _ (init_inv _ Hcap) Hall) as (rs & s & w & He & Hi & Heq & Hacc).
  exists rs, s, w. split_and!; try done.
  - by apply Hacc.
  - rewrite <- Hacc by done. rewrite <- Heq. unfold contents at 1, init, unread. done.
  - apply exec_drain; [done|]. by rewrite contents_length.
Qed.

(** C3: the first [N - 1] writes into a fresh overwrite buffer of capacity
    [N] succeed, the buffer not being full before any of them; after them
    [is_full()] is true, a further [write] returns [false] and changes
    nothing, and an [overwrite] in that state completes, drops the oldest
    value, keeps the others in order and appends the new one. *)
Theorem fill_then_write_or_overwrite (vs : list T) (v : T) :
  Z.of_nat (length vs) = size_ - 1 ->
  exists s w,
    exec size_ (Write <$> vs) (init size_)
      = Done (replicate (length vs) (RBool true)) s w /\
    (forall n, (n < length vs)%nat ->
       exists s1 w1,
         exec size_ (Write <$> take n vs) (init size_)
           = Done (replicate n (RBool true)) s1 w1 /\
         is_full size_ s1 = false) /\
    is_full size_ s = true /\ contents size_ s = vs /\
    RingBuffer.write size_ v s = Done false s [] /\
    exists s',
      RingBuffer.overwrite size_ v s = Done tt s' [] /\
      contents size_ s' = drop 1 vs ++ [v] /\ is_full size_ s' = true.
Proof.
  intros Hlen. pose proof (init_inv (T:=T) _ Hcap) as Hi0.
  assert (Hu0 : unread (init size_ : ring T) = 0) by done.
  assert (Hc0 : contents size_ (init size_ : ring T) = []) by done.
  destruct (exec_writes vs _ Hi0 ltac:(lia)) as (s & w & He & Hi & Hc & Hu).
  rewrite Hc0 in Hc. simpl in Hc.
  assert (Hf : is_full size_ s = true).
  { apply (is_full_unread _ Hcap s Hi). lia. }
  exists s, w. split_and!; try done.
  - intros n Hn.
    destruct (exec_writes (take n vs) _ Hi0) as (s1 & w1 & He1 & Hi1 & _ & Hu1).
    { rewrite length_take. lia. }
    rewrite length_take, Nat.min_l in He1, Hu1 by lia.
    exists s1, w1. split; [done|]. apply (is_full_false_unread _ Hcap s1 Hi1). lia.
  - by rewrite write_eq, Hf.
  - pose proof (full_unread_pos _ Hcap s Hi Hf) as Hpos.
    destruct (pop_spec _ Hcap s Hi Hpos) as (Hi1 & Hu1 & Hc1).
    destruct (push_spec _ Hcap (popped s) v Hi1 ltac:(lia)) as (Hi2 & Hu2 & Hc2).
    exists (pushed size_ (popped s) v). split_and!.
    + by rewrite overwrite_eq, Hf.
    + rewrite Hc2. f_equal. rewrite <- Hc, Hc1. done.
    + apply (is_full_unread _ Hcap _ Hi2). lia.
Qed.
End Fifo.

Lemma write_read_fifo_witness :
  let cs : list (call Z) := [Write 1; Write 2; Read; Write 3; Read; Read] in
  exists rs s w,
    exec 4 cs (init 4) = Done rs s w /\
    accepted cs rs = written cs /\
    written cs = returned rs ++ contents 4 s /\
    exists s' w',
      exec 4 (replicate (length (contents 4 s)) Read) s
        = Done (ROpt ∘ Some <$> contents 4 s) s' w' /\
      contents 4 s' = [].
Proof.
  apply (write_read_fifo 4 capacity_ok_4).
  - repeat constructor.
  - vm_compute. by split_and!.
Defined.

Lemma fill_then_write_or_overwrite_witness :
  let vs : list Z := [1; 2; 3] in
  exists s w,
    exec 4 (Write <$> vs) (init 4) = Done (replicate (length vs) (RBool true)) s w /\
    (forall n, (n < length vs)%nat ->
       exists s1 w1,
         exec 4 (Write <$> take n vs) (init 4) = Done (replicate n (RBool true)) s1 w1 /\
         is_full 4 s1 = false) /\
    is_full 4 s = true /\ contents 4 s = vs /\
    RingBuffer.write 4 5 s = Done false s [] /\
    exists s',
      RingBuffer.overwrite 4 5 s = Done tt s' [] /\
      contents 4 s' = drop 1 vs ++ [5] /\ is_full 4 s' = true.
Proof.
  apply (fill_then_write_or_overwrite 4 capacity_ok_4 [1; 2; 3] 5). reflexivity.
Defined.

(** ** Overwriting a full buffer *)

Section Overwrite.
Context {T : Type} `{!Inhabited T} (size_ : Z) (Hcap : capacity_ok size_).

(** C2, as the code has it: on a reachable full overwrite buffer,
    [overwrite(v)] completes; it advances the read cursor by one, stores [v]
    in the slot of the write cursor and advances the write cursor; the buffer
    is full again and holds the former contents without their oldest value,
    followed by [v].  The next [read] returns the value that was
    second-oldest when the capacity exceeds 2; with capacity 2 a full buffer
    holds one value, and the next [read] returns [v]. *)
Theorem overwrite_on_full (c : config T) (v : T) :
  reachable size_ Buffer c -> is_full size_ (shared c) = true ->
  let s := shared c in
  let s' := pushed size_ (popped s) v in
  RingBuffer.overwrite size_ v s = Done tt s' [] /\
  tail_ s' = wrap (tail_ s + 1) /\ head_ s' = wrap (head_ s + 1) /\
  buff_ s' = store (buff_ s) (Z.land (head_ s) (size_mask_ size_)) v /\
  is_full size_ s' = true /\
  contents size_ s' = drop 1 (contents size_ s) ++ [v] /\
  (2 < size_ ->
   exists x, contents size_ s !! 1%nat = Some x /\
             RingBuffer.read size_ s' = Done (Some x) (popped s') []) /\
  (size_ = 2 -> RingBuffer.read size_ s' = Done (Some v) (popped s') []).
Proof.
  intros Hr Hf s s'. destruct (reachable_inv _ Hcap _ _ Hr) as (Hi & _). fold s in Hi, Hf.
  pose proof (full_unread_pos _ Hcap s Hi Hf) as Hpos.
  pose proof Hf as Hu. apply (is_full_unread _ Hcap s Hi) in Hu.
  destruct (pop_spec _ Hcap s Hi Hpos) as (Hi1 & Hu1 & Hc1).
  destruct (push_spec _ Hcap (popped s) v Hi1 ltac:(lia)) as (Hi2 & Hu2 & Hc2).
  fold s' in Hi2, Hu2, Hc2.
  assert (Hf' : is_full size_ s' = true).
  { apply (is_full_unread _ Hcap _ Hi2). lia. }
  assert (Hc' : contents size_ s' = drop 1 (contents size_ s) ++ [v]).
  { rewrite Hc2, Hc1. done. }
  destruct (pop_spec _ Hcap s' Hi2 ltac:(lia)) as (_ & _ & Hc3).
  assert (Hread : RingBuffer.read size_ s' = Done (Some (oldest size_ s')) (popped s') []).
  { rewrite read_eq.
    by rewrite (proj2 (is_empty_false_unread _ Hcap s' Hi2)) by lia. }
  pose proof (contents_length size_ s) as Hlen.
  split_and!; try done.
  - by rewrite overwrite_eq, Hf.
  - intros Hbig. destruct (contents size_ s) as [|a [|b l]] eqn:Hcs;
      simpl in Hlen; try lia.
    exists b. split; [done|]. rewrite Hread. do 3 f_equal.
    rewrite Hc3 in Hc'. simpl in Hc'. by injection Hc'.
  - intros Htwo. destruct (contents size_ s) as [|a [|b l]] eqn:Hcs;
      simpl in Hlen; try lia.
    rewrite Hread. do 3 f_equal.
    rewrite Hc3 in Hc'. simpl in Hc'. by injection Hc'.
Qed.
End Overwrite.

(** An overwrite buffer of capacity 4 after [write(1)], [write(2)],
    [write(3)], and one of capacity 2 after [write(1)]. *)
Lemma reachable_full_buffer :
  reachable 4 Buffer (Config (Ring [1; 2; 3; 0] 3 0) PIdle CIdle).
Proof.
  apply (reachable_exec 4 Buffer [Write 1; Write 2; Write 3]
           (init 4) [RBool true; RBool true; RBool true] _ []).
  - apply reachable_init.
  - repeat constructor.
  - reflexivity.
Qed.

Lemma reachable_full_pair :
  reachable 2 Buffer (Config (Ring [1; 0] 1 0) PIdle CIdle).
Proof.
  apply (reachable_exec 2 Buffer [Write 1] (init 2) [RBool true] _ []).
  - apply reachable_init.
  - repeat constructor.
  - reflexivity.
Qed.

Lemma overwrite_on_full_witness :
  let s : ring Z := Ring [1; 2; 3; 0] 3 0 in
  let s' := pushed 4 (popped s) 5 in
  RingBuffer.overwrite 4 5 s = Done tt s' [] /\
  tail_ s' = wrap (tail_ s + 1) /\ head_ s' = wrap (head_ s + 1) /\
  buff_ s' = store (buff_ s) (Z.land (head_ s) (size_mask_ 4)) 5 /\
  is_full 4 s' = true /\
  contents 4 s' = drop 1 (contents 4 s) ++ [5] /\
  (2 < 4 ->
   exists x, contents 4 s !! 1%nat = Some x /\
             RingBuffer.read 4 s' = Done (Some x) (popped s') []) /\
  (4 = 2 -> RingBuffer.read 4 s' = Done (Some 5) (popped s') []).
Proof.
  apply (overwrite_on_full 4 capacity_ok_4
           (Config (Ring [1; 2; 3; 0] 3 0) PIdle CIdle) 5 reachable_full_buffer).
  reflexivity.
Defined.

(** With capacity 2 the full buffer [1] has no second-oldest value: after
    [overwrite(5)] the next [read] returns 5, the value just written. *)
Lemma overwrite_capacity_two_counterexample :
  let s : ring Z := Ring [1; 0] 1 0 in
  reachable 2 Buffer (Config s PIdle CIdle) /\ is_full 2 s = true /\
  contents 2 s = [1] /\
  (exists s', RingBuffer.overwrite 2 5 s = Done tt s' [] /\
              is_full 2 s' = true /\
              RingBuffer.read 2 s' = Done (Some 5) (popped s') []) /\
  ~ (exists x s' w r w',
       contents 2 s !! 1%nat = Some x /\
       RingBuffer.overwrite 2 5 s = Done tt s' w /\
       RingBuffer.read 2 s' = Done (Some x) r w').
Proof.
  split; [apply reachable_full_pair|]. split; [reflexivity|]. split; [reflexivity|].
  split.
  - eexists. split; [reflexivity|]. split; reflexivity.
  - intros (x & s' & w & r & w' & Hx & _). vm_compute in Hx. discriminate.
Qed.

(** ** Cursors over the life of a ring *)

Section Cursors.
Context {T : Type} `{!Inhabited T} (size_ : Z) (Hcap : capacity_ok size_).

Lemma advanced_le x x' :
  is_size_t x -> advanced x x' -> x < SIZE_MOD - 1 -> x <= x'.
Proof.
  intros Hx [->| ->] Hlt; [lia|].
  rewrite wrap_small by (unfold is_size_t in *; lia). lia.
Qed.

(** C7, as the code has it: in every configuration reachable from
    construction, for both classes, the unsigned difference of the cursors
    lies in [0, N - 1]; every step of every call, parking or not, keeps it
    there and leaves each cursor unchanged or advances it by one modulo
    [2 ^ 64]: a cursor below the largest [size_t] value never decreases. *)
Theorem cursors_stay_in_range (k : variant) (c : config T) :
  reachable size_ k c ->
  0 <= unread (shared c) <= size_ - 1 /\
  forall c', sys_step size_ k c c' ->
    0 <= unread (shared c') <= size_ - 1 /\
    advanced (head_ (shared c)) (head_ (shared c')) /\
    advanced (tail_ (shared c)) (tail_ (shared c')) /\
    (head_ (shared c) < SIZE_MOD - 1 -> head_ (shared c) <= head_ (shared c')) /\
    (tail_ (shared c) < SIZE_MOD - 1 -> tail_ (shared c) <= tail_ (shared c')).
Proof.
  intros Hr. pose proof (reachable_inv _ Hcap _ _ Hr) as Hinv.
  pose proof Hinv as ((_ & Hh & Ht & Hd) & _).
  split; [split; [apply unread_nonneg|done]|].
  intros c' Hstep.
  destruct (sys_step_inv _ Hcap k c c' Hinv Hstep) as (((_ & _ & _ & Hd') & _) & Hah & Hat).
  split_and!; try done.
  - apply unread_nonneg.
  - by apply advanced_le.
  - by apply advanced_le.
Qed.
End Cursors.

(** A queue of capacity 2 through which [n] values have passed. *)
Lemma reachable_spin (n : Z) :
  0 <= n -> n < SIZE_MOD ->
  reachable 2 Queue (Config (Ring [0; 0] n n) PIdle CIdle).
Proof.
  intros Hn. revert n Hn. apply (natlike_ind (fun n => n < SIZE_MOD -> _)).
  - intros _. exact (reachable_init (T:=Z) 2 Queue).
  - intros n Hn IH Hlt. unfold Z.succ in *.
    assert (Hw : wrap (n + 1) = n + 1) by (apply wrap_small; unfold is_size_t; lia).
    assert (Hst : forall i, store [0; 0] i 0 = [0; 0]).
    { intros i. unfold store. by destruct (Z.to_nat i) as [|[|]]. }
    assert (Hi0 : ring_inv 2 (Ring [0; 0] n n)).
    { unfold ring_inv, unread, is_size_t; simpl. rewrite Z.sub_diag.
      split_and!; try done; try lia. }
    assert (Hi1 : ring_inv 2 (Ring [0; 0] (n + 1) n)).
    { unfold ring_inv, unread, is_size_t; simpl.
      replace (n + 1 - n) with 1 by lia. split_and!; try done; try lia. }
    apply (reachable_exec 2 Queue [TryEnqueue 0; TryDequeue] (Ring [0; 0] n n)
             [RBool true; ROpt (Some (slot [0; 0] (Z.land n 1)))] _ ([Head] ++ [Tail]));
      [apply IH; lia | constructor; [by left|constructor; [by right|constructor]] |].
    eapply exec_cons_done.
    + unfold perform, bind. rewrite try_enqueue_eq.
      rewrite (proj2 (is_full_false_unread _ capacity_ok_2 _ Hi0)).
      * unfold pushed; simpl. rewrite Hst, Hw. reflexivity.
      * unfold unread; simpl. rewrite Z.sub_diag. done.
    + rewrite <- (app_nil_r [Tail]). eapply exec_cons_done; [|reflexivity].
      unfold perform, bind. rewrite try_dequeue_eq.
      rewrite (proj2 (is_empty_false_unread _ capacity_ok_2 _ Hi1)).
      * unfold popped, oldest; simpl. rewrite Hw. reflexivity.
      * unfold unread; simpl. replace (n + 1 - n) with 1 by lia. done.
Qed.

Lemma cursors_stay_in_range_witness :
  let c : config Z := Config (Ring [1; 2; 3; 0] 3 0) PIdle CIdle in
  0 <= unread (shared c) <= 4 - 1 /\
  forall c', sys_step 4 Queue c c' ->
    0 <= unread (shared c') <= 4 - 1 /\
    advanced (head_ (shared c)) (head_ (shared c')) /\
    advanced (tail_ (shared c)) (tail_ (shared c')) /\
    (head_ (shared c) < SIZE_MOD - 1 -> head_ (shared c) <= head_ (shared c')) /\
    (tail_ (shared c) < SIZE_MOD - 1 -> tail_ (shared c) <= tail_ (shared c')).
Proof.
  apply (cursors_stay_in_range 4 capacity_ok_4 Queue
           (Config (Ring [1; 2; 3; 0] 3 0) PIdle CIdle) reachable_three).
Defined.

(** After [2 ^ 64 - 1] values have passed through a queue its write cursor
    holds the largest [size_t] value; the next [try_enqueue] wraps it to 0. *)
Lemma cursor_wraps_counterexample :
  let c : config Z :=
    Config (Ring [0; 0] 18446744073709551615 18446744073709551615) PIdle CIdle in
  reachable 2 Queue c /\
  exists c', sys_step 2 Queue c c' /\
             head_ (shared c') = 0 /\ head_ (shared c') < head_ (shared c).
Proof.
  split.
  - apply reachable_spin; [lia|reflexivity].
  - eexists. split.
    + apply (producer_calls 2 Queue _ (TryEnqueue 7) (RBool true)
               (Ring [0; 7] 0 18446744073709551615) [Head]); done.
    + split; reflexivity.
Qed.

(** ** Peek offsets beyond the capacity *)

(** C8 at a fresh queue of capacity 4 and offset 4: [can_peek(4)] fails its
    assertion, and so does [peek(4)] in the [can_peek] call of its loop, but
    [try_peek(4)] returns an empty result: the range test in front of its
    asserts returns first (see [try_peek_beyond] for every ring and offset). *)
Theorem peek_offset_four_of_four :
  RingQueue.can_peek 4 4 (init 4 : ring Z) = AssertFailed /\
  consume 4 3 (Peek0 4) (init 4 : ring Z) = Failed /\
  RingQueue.try_peek 4 4 (init 4 : ring Z) = Done None (init 4) [].
Proof. split_and!; reflexivity. Qed.

(** ** The parking calls *)

Section ParkingFacts.
Context {T : Type} `{!Inhabited T} (size_ : Z) (Hcap : capacity_ok size_).

Lemma producer_touches_ready (p : producer T) s :
  ring_inv size_ s -> producer_inv size_ p s ->
  producer_touches p = true -> producer_ready size_ p s = true.
Proof.
  intros Hi Hp Ht. destruct p; try done; simpl in *.
  - destruct Hp as [_ Hp]. by rewrite (proj2 (is_full_false_unread _ Hcap s Hi)).
  - by rewrite (proj2 (is_full_false_unread _ Hcap s Hi)).
Qed.

Lemma consumer_touches_ready (c : consumer T) s :
  ring_inv size_ s -> consumer_inv size_ c s ->
  consumer_touches c = true -> consumer_ready size_ c s = true.
Proof.
  intros Hi Hc Ht. destruct c; try done; simpl in *;
    try by rewrite (proj2 (is_empty_false_unread _ Hcap s Hi)).
  rewrite (peek_distance_unread _ Hcap s Hi). apply Z.ltb_lt. lia.
Qed.

Lemma producer_parks_again (p : producer T) s :
  ring_inv size_ s -> producer_inv size_ p s ->
  producer_waits p = true -> producer_ready size_ p s = false ->
  producer_step size_ p s = Done (p, None) s [] /\ producer_parked p s = true.
Proof.
  intros Hi Hp Hw Hr. destruct p; try done; simpl in *.
  apply negb_false_iff in Hr. apply (is_full_unread _ Hcap s Hi) in Hr.
  destruct Hp as [_ [Hp|Hp]]; [|lia].
  unfold bind, load_tail, query. simpl. apply Z.eqb_eq in Hp. by rewrite Hp.
Qed.

(** The steps of the loop of [peek]. *)
Lemma peek_wait_woken amnt ltail h (s : ring T) :
  head_ s <> h ->
  consumer_step size_ (PeekWait amnt ltail h) s = Done (PeekCan0 amnt ltail, None) s [].
Proof.
  intros Hh%Z.eqb_neq. simpl. unfold bind, load_head, query. simpl. by rewrite Hh.
Qed.

Lemma peek_can_peek_head amnt ltail (s : ring T) :
  consumer_step size_ (PeekCan0 amnt ltail) s =
    Done (PeekCan1 amnt ltail (Z.land (head_ s) (size_mask_ size_)), None) s [].
Proof. reflexivity. Qed.

Lemma peek_can_peek_test amnt ltail (s : ring T) :
  amnt < size_ ->
  consumer_step size_ (PeekCan1 amnt ltail (Z.land (head_ s) (size_mask_ size_))) s =
    Done (if amnt <? peek_distance size_ s
          then PeekRead amnt ltail else PeekLoad amnt ltail, None) s [].
Proof.
  intros Ha%Z.ltb_lt. simpl. unfold bind, load_tail, query, assert. simpl.
  rewrite Ha. fold (peek_distance size_ s). by destruct (amnt <? peek_distance size_ s).
Qed.

Lemma peek_load_head amnt ltail (s : ring T) :
  consumer_step size_ (PeekLoad amnt ltail) s =
    Done (PeekWait amnt ltail (head_ s), None) s [].
Proof. reflexivity. Qed.

Lemma consumer_parks_again (c : consumer T) s :
  ring_inv size_ s -> consumer_inv size_ c s ->
  consumer_waits c = true -> consumer_ready size_ c s = false ->
  exists n c1,
    (1 <= n <= 4)%nat /\
    steps_alone size_ n c s = Some (c1, s) /\
    consumer_waits c1 = true /\ consumer_parked c1 s = true /\
    (c1 = c \/ exists a lt h, c = PeekWait a lt h /\ c1 = PeekWait a lt (head_ s)).
Proof.
  intros Hi Hc Hw Hr. destruct c; try done; simpl in Hc, Hr.
  - (* dequeue *)
    apply negb_false_iff in Hr. apply (is_empty_unread _ Hcap s Hi) in Hr.
    destruct Hc as [Hc|Hc]; [|lia]. apply Z.eqb_eq in Hc.
    exists 1%nat, (DeqWait lhead). simpl.
    unfold bind, load_head, query. simpl. rewrite Hc. split_and!; auto.
  - (* current *)
    apply negb_false_iff in Hr. apply (is_empty_unread _ Hcap s Hi) in Hr.
    destruct Hc as [Hc|Hc]; [|lia]. apply Z.eqb_eq in Hc.
    exists 1%nat, (CurWait lhead ltail). simpl.
    unfold bind, load_head, query. simpl. rewrite Hc. split_and!; auto.
  - (* peek *)
    destruct (head_ s =? h) eqn:Hh.
    + exists 1%nat, (PeekWait amnt ltail h). simpl.
      unfold bind, load_head, query. simpl. rewrite Hh. split_and!; auto.
    + exists 4%nat, (PeekWait amnt ltail (head_ s)).
      cbn [steps_alone]. apply Z.eqb_neq in Hh.
      rewrite peek_wait_woken, peek_can_peek_head, peek_can_peek_test by (done || lia).
      rewrite Hr, peek_load_head. simpl. rewrite Z.eqb_refl.
      split_and!; auto. right. by exists amnt, ltail, h.
Qed.

(** While the condition of its call is false, no step of a thread touches
    the ring or leads to a step that would. *)
Lemma producer_held_back (p p' : producer T) o s s' w :
  ring_inv size_ s -> producer_inv size_ p s ->
  producer_ready size_ p s = false ->
  producer_step size_ p s = Done (p', o) s' w ->
  s' = s /\ producer_touches p' = false.
Proof.
  intros Hi Hp Hr Hs. destruct p; try done; simpl in Hp, Hr;
    apply negb_false_iff in Hr; pose proof Hr as Hu;
    apply (is_full_unread _ Hcap s Hi) in Hu;
    simpl in Hs; unfold bind, load_head, load_tail, query in Hs; simpl in Hs.
  - by done_eq Hs.
  - subst lhead. fold (is_full size_ s) in Hs. rewrite Hr in Hs. by done_eq Hs.
  - destruct Hp as [_ [Hp|Hp]]; [|lia]. apply Z.eqb_eq in Hp. rewrite Hp in Hs.
    by done_eq Hs.
  - lia.
  - lia.
Qed.

Lemma consumer_held_back (c c' : consumer T) o s s' w :
  ring_inv size_ s -> consumer_inv size_ c s ->
  consumer_ready size_ c s = false ->
  consumer_step size_ c s = Done (c', o) s' w ->
  s' = s /\ consumer_touches c' = false.
Proof.
  intros Hi Hc Hr Hs.
  assert (Hempty : negb (is_empty size_ s) = false ->
    unread s = 0 /\ is_empty size_ s = true).
  { intros He%negb_false_iff. split; [|done]. by apply (is_empty_unread _ Hcap s Hi). }
  destruct c; try done; simpl in Hc, Hr; try (destruct (Hempty Hr) as [Hu He]);
    simpl in Hs; unfold bind, load_head, load_tail, read_slot, query in Hs;
    simpl in Hs; try lia; try (by done_eq Hs).
  - destruct Hc as [Hc|Hc]; [|lia]. subst lhead.
    fold (is_empty size_ s) in Hs. rewrite He in Hs. by done_eq Hs.
  - destruct Hc as [Hc|Hc]; [|lia]. apply Z.eqb_eq in Hc. rewrite Hc in Hs.
    by done_eq Hs.
  - destruct Hc as [Hc|Hc]; [|lia]. subst lhead.
    fold (is_empty size_ s) in Hs. rewrite He in Hs. by done_eq Hs.
  - destruct Hc as [Hc|Hc]; [|lia]. apply Z.eqb_eq in Hc. rewrite Hc in Hs.
    by done_eq Hs.
  - destruct Hc as [_ Hc]. rewrite (peek_distance_unread _ Hcap s Hi) in Hr.
    apply Z.ltb_ge in Hr. unfold assert in Hs.
    destruct (amnt <? size_); [|done].
    rewrite (proj2 (Z.ltb_ge amnt _)) in Hs by lia. by done_eq Hs.
  - destruct (head_ s =? h); by done_eq Hs.
Qed.

(** In every configuration reachable with one producer and one consumer
    thread, a thread inside a parking call is about to touch the array or a
    cursor only when the condition of its call holds; while the condition is
    false no step of the call touches the ring; and a thread in [wait] that
    is woken while the condition is false is parked in [wait] again. *)
Lemma parked_threads_held_back (k : variant) (c : config T) :
  reachable size_ k c ->
  (producer_touches (prod c) = true ->
   producer_ready size_ (prod c) (shared c) = true) /\
  (consumer_touches (cons c) = true ->
   consumer_ready size_ (cons c) (shared c) = true) /\
  (producer_waits (prod c) = true ->
   producer_ready size_ (prod c) (shared c) = false ->
   producer_step size_ (prod c) (shared c) = Done (prod c, None) (shared c) [] /\
   producer_parked (prod c) (shared c) = true) /\
  (consumer_waits (cons c) = true ->
   consumer_ready size_ (cons c) (shared c) = false ->
   exists n c1,
     (1 <= n <= 4)%nat /\
     steps_alone size_ n (cons c) (shared c) = Some (c1, shared c) /\
     consumer_waits c1 = true /\ consumer_parked c1 (shared c) = true /\
     (c1 = cons c \/
      exists a lt h, cons c = PeekWait a lt h /\
                     c1 = PeekWait a lt (head_ (shared c)))) /\
  (producer_ready size_ (prod c) (shared c) = false ->
   forall p' o s' w,
     producer_step size_ (prod c) (shared c) = Done (p', o) s' w ->
     s' = shared c /\ producer_touches p' = false) /\
  (consumer_ready size_ (cons c) (shared c) = false ->
   forall c' o s' w,
     consumer_step size_ (cons c) (shared c) = Done (c', o) s' w ->
     s' = shared c /\ consumer_touches c' = false).
Proof.
  intros Hr. destruct (reachable_inv _ Hcap _ _ Hr) as (Hi & Hp & Hc & _).
  split_and!.
  - by apply producer_touches_ready.
  - by apply consumer_touches_ready.
  - by apply producer_parks_again.
  - by apply consumer_parks_again.
  - intros Hready p' o s' w. by apply producer_held_back.
  - intros Hready c' o s' w. by apply consumer_held_back.
Qed.
End ParkingFacts.

(** A consumer that called [dequeue] on a fresh queue of capacity 4 and is
    parked in [head_.wait(0)]. *)
Lemma reachable_parked_dequeue :
  reachable 4 Queue (Config (init 4 : ring Z) PIdle (DeqWait 0)).
Proof.
  apply (reachable_step 4 Queue (Config (init 4) PIdle (Deq1 0))).
  - apply (reachable_step 4 Queue (Config (init 4) PIdle Deq0)).
    + apply (reachable_step 4 Queue (Config (init 4) PIdle CIdle)).
      * apply reachable_init.
      * by apply (consumer_enters 4 Queue (Config (init 4) PIdle CIdle) Deq0).
    + by apply (consumer_runs 4 Queue (Config (init 4) PIdle Deq0)
                  (Deq1 0) None (init 4) []).
  - by apply (consumer_runs 4 Queue (Config (init 4) PIdle (Deq1 0))
                (DeqWait 0) None (init 4) []).
Qed.

(** ** The scenarios of the test suite *)

Example scenario_full_buffer :
  exec 4 [Write 1; Write 2; Write 3; IsFull; Write 5; Read] (init 4 : ring Z)
  = Done [RBool true; RBool true; RBool true; RBool true; RBool false; ROpt (Some 1)]
         (Ring [1; 2; 3; 0] 3 1) [].
Proof. reflexivity. Qed.

Example scenario_overwrite :
  exec 4 [Write 1; Write 2; Write 3; Overwrite 5; IsFull; Read] (init 4 : ring Z)
  = Done [RBool true; RBool true; RBool true; RVoid; RBool true; ROpt (Some 2)]
         (Ring [1; 2; 3; 5] 4 2) [].
Proof. reflexivity. Qed.

Example scenario_wrap_around :
  exec 4 [Write 1; Write 2; Write 3; Read; Read; Read; IsEmpty; Write 5; Read]
       (init 4 : ring Z)
  = Done [RBool true; RBool true; RBool true; ROpt (Some 1); ROpt (Some 2);
          ROpt (Some 3); RBool true; RBool true; ROpt (Some 5)]
         (Ring [1; 2; 3; 5] 4 4) [].
Proof. reflexivity. Qed.

Example scenario_can_peek :
  exec 4 [TryEnqueue 1; TryEnqueue 2; TryEnqueue 3;
          CanPeek 0; CanPeek 1; CanPeek 2; CanPeek 3; TryPeek 1] (init 4 : ring Z)
  = Done [RBool true; RBool true; RBool true;
          RBool true; RBool true; RBool true; RBool false; ROpt (Some 2)]
         (Ring [1; 2; 3; 0] 3 0) [Head; Head; Head].
Proof. reflexivity. Qed.

Example scenario_peek :
  consume 4 5 (Peek0 1) (Ring [1; 2; 3; 0] 3 0)
  = Returned (RVal 2) (Ring [1; 2; 3; 0] 3 0).
Proof. reflexivity. Qed.

Example scenario_peek_wrap_around :
  consume 4 5 (Peek0 1) (Ring [1; 2; 3; 4] 4 2)
  = Returned (RVal 4) (Ring [1; 2; 3; 4] 4 2).
Proof. reflexivity. Qed.

Example scenario_dequeue_parks :
  consume 4 7 Deq0 (init 4 : ring Z) = Inside (DeqWait 0) (init 4).
Proof. reflexivity. Qed.

Example scenario_dequeue_after_enqueue :
  consume 4 7 (DeqWait 0) (Ring [1; 0; 0; 0] 1 0)
  = Returned (RVal 1) (Ring [1; 0; 0; 0] 1 1).
Proof. reflexivity. Qed.

(** The loop of [peek] loads [head_] again for its [wait]: when both values
    arrive between the [can_peek] that answered no and that load, the thread
    parks although [can_peek(1)] now holds, until [head_] changes once more. *)
Remark peek_parks_on_fresh_head :
  let c : config Z := Config (Ring [1; 2; 0; 0] 2 0) PIdle (PeekWait 1 0 2) in
  reachable 4 Queue c /\
  consumer_parked (cons c) (shared c) = true /\
  consumer_ready 4 (cons c) (shared c) = true.
Proof.
  split; [|split; reflexivity].
  set (s0 := init 4 : ring Z).
  set (s1 := Ring [1; 0; 0; 0] 1 0 : ring Z).
  set (s2 := Ring [1; 2; 0; 0] 2 0 : ring Z).
  apply (reachable_step 4 Queue (Config s2 PIdle (PeekLoad 1 0)));
    [|by apply (consumer_runs 4 Queue (Config s2 PIdle (PeekLoad 1 0))
                  (PeekWait 1 0 2) None s2 [])].
  apply (reachable_step 4 Queue (Config s1 PIdle (PeekLoad 1 0)));
    [|by apply (producer_calls 4 Queue (Config s1 PIdle (PeekLoad 1 0))
                  (TryEnqueue 2) (RBool true) s2 [Head])].
  apply (reachable_step 4 Queue (Config s0 PIdle (PeekLoad 1 0)));
    [|by apply (producer_calls 4 Queue (Config s0 PIdle (PeekLoad 1 0))
                  (TryEnqueue 1) (RBool true) s1 [Head])].
  apply (reachable_step 4 Queue (Config s0 PIdle (PeekCan1 1 0 0)));
    [|by apply (consumer_runs 4 Queue (Config s0 PIdle (PeekCan1 1 0 0))
                  (PeekLoad 1 0) None s0 [])].
  apply (reachable_step 4 Queue (Config s0 PIdle (PeekCan0 1 0)));
    [|by apply (consumer_runs 4 Queue (Config s0 PIdle (PeekCan0 1 0))
                  (PeekCan1 1 0 0) None s0 [])].
  apply (reachable_step 4 Queue (Config s0 PIdle (Peek0 1)));
    [|by apply (consumer_runs 4 Queue (Config s0 PIdle (Peek0 1))
                  (PeekCan0 1 0) None s0 [])].
  apply (reachable_step 4 Queue (Config s0 PIdle CIdle));
    [apply reachable_init|].
  by apply (consumer_enters 4 Queue (Config s0 PIdle CIdle) (Peek0 1)).
Qed.

(** * Further properties of the code *)

(** ** The capacity check and the mask *)

(** X1: [can_mod_opt_] accepts a positive [size_] exactly when it is a power of
    two.  (It also accepts 0 and 1, which [static_assert(size_ > 1)]
    rejects.) *)
Theorem can_mod_opt_powers_of_two (size_ : Z) :
  0 < size_ ->
  can_mod_opt_ size_ = true <-> exists k, 0 <= k /\ size_ = 2 ^ k.
Proof.
  intros Hpos. unfold can_mod_opt_. rewrite Z.eqb_eq. split.
  - intros Hand. set (k := Z.log2 size_).
    assert (Hk : 0 <= k) by apply Z.log2_nonneg.
    destruct (Z.log2_spec size_ Hpos) as [Hlo Hhi]. fold k in Hlo, Hhi.
    exists k. split; [done|].
    destruct (Z.eq_dec size_ (2 ^ k)) as [|Hne]; [done|]. exfalso.
    assert (Hlog : Z.log2 (size_ - 1) = k) by (apply Z.log2_unique; lia).
    assert (Hb1 : Z.testbit size_ k = true) by (by apply Z.bit_log2).
    assert (Hb2 : Z.testbit (size_ - 1) k = true).
    { rewrite <- Hlog. apply Z.bit_log2. lia. }
    assert (Hb : Z.testbit (Z.land size_ (size_ - 1)) k = true).
    { by rewrite Z.land_spec, Hb1, Hb2. }
    by rewrite Hand, Z.bits_0 in Hb.
  - intros (k & Hk & ->).
    replace (2 ^ k - 1) with (Z.ones k) by (rewrite Z.ones_equiv; lia).
    rewrite Z.land_ones by done. apply Z_mod_same_full.
Qed.

Lemma can_mod_opt_powers_of_two_witness :
  can_mod_opt_ 8 = true <-> exists k, 0 <= k /\ 8 = 2 ^ k.
Proof. apply (can_mod_opt_powers_of_two 8). lia. Defined.

Example can_mod_opt_zero_one : can_mod_opt_ 0 = true /\ can_mod_opt_ 1 = true.
Proof. by split. Qed.

(** X2: Masking a cursor with [size_mask_] is the remainder by the capacity, so
    every index the code forms is inside the array, and advancing a cursor by
    one moves to the cyclically next slot, also when the cursor wraps around
    at [2 ^ 64]. *)
Theorem masked_cursor_cycles (size_ x : Z) :
  capacity_ok size_ ->
  Z.land x (size_mask_ size_) = x mod size_ /\
  0 <= Z.land x (size_mask_ size_) < size_ /\
  Z.land (wrap (x + 1)) (size_mask_ size_) = (Z.land x (size_mask_ size_) + 1) mod size_.
Proof.
  intros Hcap. split_and!.
  - by apply mask_mod.
  - by apply mask_range.
  - by apply mask_range.
  - rewrite (mask_wrap _ Hcap), (mask_mod _ Hcap). by rewrite Zplus_mod_idemp_l.
Qed.

Lemma masked_cursor_cycles_witness :
  Z.land 18446744073709551615 (size_mask_ 4) = 18446744073709551615 mod 4 /\
  0 <= Z.land 18446744073709551615 (size_mask_ 4) < 4 /\
  Z.land (wrap (18446744073709551615 + 1)) (size_mask_ 4)
    = (Z.land 18446744073709551615 (size_mask_ 4) + 1) mod 4.
Proof. apply (masked_cursor_cycles 4 18446744073709551615 capacity_ok_4). Defined.

(** ** [is_full] and [is_empty] *)

Section FullEmpty.
Context {T : Type} `{!Inhabited T} (size_ : Z) (Hcap : capacity_ok size_).

(** X3: In every reachable configuration of either class the array has [size_]
    slots, at most [size_ - 1] values are unread, [is_empty()] holds exactly
    when none is and [is_full()] exactly when [size_ - 1] are; the two are
    never true together. *)
Theorem full_and_empty_on_reachable (k : variant) (c : config T) :
  reachable size_ k c ->
  let s := shared c in
  Z.of_nat (length (buff_ s)) = size_ /\
  Z.of_nat (length (contents size_ s)) <= size_ - 1 /\
  (is_empty size_ s = true <-> contents size_ s = []) /\
  (is_full size_ s = true <-> Z.of_nat (length (contents size_ s)) = size_ - 1) /\
  (is_full size_ s = true -> is_empty size_ s = false).
Proof.
  intros Hr s. destruct (reachable_inv _ Hcap _ _ Hr) as (Hi & _). fold s in Hi.
  pose proof (size_pos _ Hcap) as HN. pose proof (contents_length size_ s) as Hlen.
  pose proof Hi as (Hb & _ & _ & Hd).
  split_and!.
  - rewrite Hb. lia.
  - lia.
  - rewrite (is_empty_unread _ Hcap s Hi), <- Hlen. split.
    + intros H0. by destruct (contents size_ s).
    + by intros ->.
  - by rewrite (is_full_unread _ Hcap s Hi), <- Hlen.
  - intros Hf. apply (is_full_unread _ Hcap s Hi) in Hf.
    apply (is_empty_false_unread _ Hcap s Hi). lia.
Qed.
End FullEmpty.

Lemma full_and_empty_on_reachable_witness :
  let s : ring Z := Ring [1; 2; 3; 0] 3 0 in
  Z.of_nat (length (buff_ s)) = 4 /\
  Z.of_nat (length (contents 4 s)) <= 4 - 1 /\
  (is_empty 4 s = true <-> contents 4 s = []) /\
  (is_full 4 s = true <-> Z.of_nat (length (contents 4 s)) = 4 - 1) /\
  (is_full 4 s = true -> is_empty 4 s = false).
Proof.
  apply (full_and_empty_on_reachable 4 capacity_ok_4 Queue
           (Config (Ring [1; 2; 3; 0] 3 0) PIdle CIdle) reachable_three).
Defined.

(** ** The calls that never park against the bounded list *)

Section ModelFacts.
Context {T : Type} `{!Inhabited T} (size_ : Z) (Hcap : capacity_ok size_).

Lemma model_full_is_full (s : ring T) :
  ring_inv size_ s -> model_full size_ (contents size_ s) = is_full size_ s.
Proof.
  intros Hi. unfold model_full. rewrite contents_length.
  destruct (is_full size_ s) eqn:Hf.
  - apply (is_full_unread _ Hcap s Hi) in Hf. by apply Z.eqb_eq.
  - apply (is_full_false_unread _ Hcap s Hi) in Hf. apply Z.eqb_neq. lia.
Qed.

Lemma model_empty_is_empty (s : ring T) :
  ring_inv size_ s ->
  (Z.of_nat (length (contents size_ s)) =? 0) = is_empty size_ s.
Proof.
  intros Hi. rewrite contents_length.
  destruct (is_empty size_ s) eqn:He.
  - apply (is_empty_unread _ Hcap s Hi) in He. by apply Z.eqb_eq.
  - apply (is_empty_false_unread _ Hcap s Hi) in He. apply Z.eqb_neq. lia.
Qed.

Lemma contents_empty (s : ring T) :
  ring_inv size_ s -> is_empty size_ s = true -> contents size_ s = [].
Proof.
  intros Hi He. apply (is_empty_unread _ Hcap s Hi) in He.
  unfold contents. by rewrite He.
Qed.

Lemma contents_nonempty (s : ring T) :
  ring_inv size_ s -> is_empty size_ s = false ->
  ring_inv size_ (popped s) /\
  contents size_ s = oldest size_ s :: contents size_ (popped s).
Proof.
  intros Hi He. apply (is_empty_false_unread _ Hcap s Hi) in He.
  destruct (pop_spec _ Hcap s Hi He) as (? & _ & ?). done.
Qed.

Lemma contents_pushed (s : ring T) v :
  ring_inv size_ s -> is_full size_ s = false ->
  ring_inv size_ (pushed size_ s v) /\
  contents size_ (pushed size_ s v) = contents size_ s ++ [v].
Proof.
  intros Hi Hf. apply (is_full_false_unread _ Hcap s Hi) in Hf.
  destruct (push_spec _ Hcap s v Hi Hf) as (? & _ & ?). done.
Qed.

Lemma contents_overwritten (s : ring T) v :
  ring_inv size_ s -> is_full size_ s = true ->
  ring_inv size_ (pushed size_ (popped s) v) /\
  contents size_ (pushed size_ (popped s) v) = drop 1 (contents size_ s) ++ [v].
Proof.
  intros Hi Hf. pose proof (full_unread_pos _ Hcap s Hi Hf) as Hpos.
  apply (is_full_unread _ Hcap s Hi) in Hf.
  destruct (pop_spec _ Hcap s Hi Hpos) as (Hi1 & Hu1 & Hc1).
  destruct (push_spec _ Hcap (popped s) v Hi1 ltac:(lia)) as (Hi2 & _ & Hc2).
  split; [done|]. by rewrite Hc2, Hc1.
Qed.

(** One call changes the unread values, and replies, as the list does. *)
Lemma perform_model (c : call T) (s : ring T) :
  ring_inv size_ s -> call_args_ok c ->
  match model size_ c (contents size_ s) with
  | Some (r, q') =>
      exists s' w, perform size_ c s = Done r s' w /\
                   ring_inv size_ s' /\ contents size_ s' = q'
  | None => perform size_ c s = AssertFailed
  end.
Proof.
  intros Hi Hargs. destruct c; simpl model; simpl in Hargs;
    rewrite ?(model_full_is_full s Hi), ?(model_empty_is_empty s Hi).
  - (* write *)
    rewrite perform_write. destruct (is_full size_ s) eqn:Hf.
    + by exists s, [].
    + destruct (contents_pushed s v Hi Hf). by eexists _, _.
  - (* overwrite *)
    unfold perform, bind. rewrite overwrite_eq. destruct (is_full size_ s) eqn:Hf.
    + destruct (contents_overwritten s v Hi Hf). by eexists _, _.
    + destruct (contents_pushed s v Hi Hf). by eexists _, _.
  - (* read *)
    rewrite perform_read. destruct (is_empty size_ s) eqn:He.
    + rewrite (contents_empty s Hi He). exists s, []. split_and!; try done.
      by apply contents_empty.
    + destruct (contents_nonempty s Hi He) as [Hi1 Hc1]. rewrite Hc1.
      by eexists _, _.
  - (* RingBuffer::try_current *)
    unfold perform, bind. rewrite buffer_try_current_eq.
    destruct (is_empty size_ s) eqn:He.
    + rewrite (contents_empty s Hi He). exists s, []. split_and!; try done.
      by apply contents_empty.
    + destruct (contents_nonempty s Hi He) as [Hi1 Hc1].
      exists s, []. split_and!; try done. do 2 f_equal. by rewrite Hc1.
  - (* try_enqueue *)
    unfold perform, bind. rewrite try_enqueue_eq. destruct (is_full size_ s) eqn:Hf.
    + by exists s, [].
    + destruct (contents_pushed s v Hi Hf). by eexists _, _.
  - (* try_dequeue *)
    unfold perform, bind. rewrite try_dequeue_eq. destruct (is_empty size_ s) eqn:He.
    + rewrite (contents_empty s Hi He). exists s, []. split_and!; try done.
      by apply contents_empty.
    + destruct (contents_nonempty s Hi He) as [Hi1 Hc1]. rewrite Hc1.
      by eexists _, _.
  - (* RingQueue::try_current *)
    unfold perform, bind. rewrite queue_try_current_eq.
    destruct (is_empty size_ s) eqn:He.
    + rewrite (contents_empty s Hi He). exists s, []. split_and!; try done.
      by apply contents_empty.
    + destruct (contents_nonempty s Hi He) as [Hi1 Hc1].
      exists s, []. split_and!; try done. do 2 f_equal. by rewrite Hc1.
  - (* can_peek *)
    unfold perform, bind. rewrite can_peek_eq, contents_length.
    rewrite (peek_distance_unread _ Hcap s Hi).
    destruct (amnt <? size_); [|done]. by exists s, [].
  - (* try_peek *)
    unfold perform, bind. rewrite (try_peek_inv _ Hcap s amnt Hi Hargs).
    exists s, []. split_and!; try done. do 2 f_equal.
    pose proof (contents_length size_ s). case_bool_decide.
    + rewrite contents_lookup; [done|lia].
    + symmetry. apply lookup_ge_None. lia.
  - (* wake_all *) by exists s, [Head; Tail].
  - (* is_full *) by exists s, [].
  - (* is_empty *) by exists s, [].
Qed.

Lemma exec_model (cs : list (call T)) :
  forall s, ring_inv size_ s -> Forall call_args_ok cs ->
  match model_run size_ cs (contents size_ s) with
  | Some (rs, q) =>
      exists s' w, exec size_ cs s = Done rs s' w /\
                   ring_inv size_ s' /\ contents size_ s' = q
  | None => exec size_ cs s = AssertFailed
  end.
Proof.
  induction cs as [|c cs IH]; intros s Hi Hall.
  - by exists s, [].
  - apply Forall_cons_1 in Hall as [Hc Hall]. cbn [model_run].
    pose proof (perform_model c s Hi Hc) as Hp.
    destruct (model size_ c (contents size_ s)) as [[r q1]|].
    + destruct Hp as (s1 & w1 & Hp & Hi1 & <-).
      pose proof (IH s1 Hi1 Hall) as He.
      destruct (model_run size_ cs (contents size_ s1)) as [[rs q2]|].
      * destruct He as (s2 & w2 & He & Hi2 & <-).
        exists s2, (w1 ++ w2). split; [|done]. by eapply exec_cons_done.
      * simpl. unfold bind at 1. rewrite Hp. unfold bind at 1. by rewrite He.
    + simpl. unfold bind at 1. by rewrite Hp.
Qed.

(** X4: Any sequence of calls that never park, made on a fresh ring by one
    thread, replies as the bounded list of capacity [size_ - 1] does and
    leaves the list's values unread, oldest first; it fails an assertion
    exactly where the list does, at a [can_peek] offset that is not below
    the capacity. *)
Theorem calls_follow_bounded_list (cs : list (call T)) :
  Forall call_args_ok cs ->
  match model_run size_ cs [] with
  | Some (rs, q) =>
      exists s w, exec size_ cs (init size_) = Done rs s w /\ contents size_ s = q
  | None => exec size_ cs (init size_) = AssertFailed
  end.
Proof.
  intros Hall. pose proof (exec_model cs _ (init_inv _ Hcap) Hall) as He.
  change (contents size_ (init size_)) with (@nil T) in He.
  destruct (model_run size_ cs []) as [[rs q]|]; [|done].
  destruct He as (s & w & He & _ & Hc). by exists s, w.
Qed.
End ModelFacts.

Lemma calls_follow_bounded_list_witness :
  let cs : list (call Z) :=
    [TryEnqueue 1; Overwrite 2; Write 3; TryEnqueue 4; QueueTryCurrent; Overwrite 5;
     TryPeek 2; CanPeek 3; Read; TryDequeue; IsFull; WakeAll] in
  match model_run 4 cs [] with
  | Some (rs, q) => exists s w, exec 4 cs (init 4) = Done rs s w /\ contents 4 s = q
  | None => exec 4 cs (init 4) = AssertFailed
  end.
Proof.
  apply (calls_follow_bounded_list 4 capacity_ok_4).
  repeat constructor; simpl; lia.
Defined.

(** ** Notifications *)

Section Notifications.
Context {T : Type} `{!Inhabited T} (size_ : Z).

Lemma perform_notified (c : call T) s r s' w :
  perform size_ c s = Done r s' w -> w = notified c r.
Proof.
  intros Hp. destruct c; unfold perform, bind in Hp.
  - rewrite write_eq in Hp. destruct (is_full size_ s); by done_eq Hp.
  - rewrite overwrite_eq in Hp. by done_eq Hp.
  - rewrite read_eq in Hp. destruct (is_empty size_ s); by done_eq Hp.
  - rewrite buffer_try_current_eq in Hp. destruct (is_empty size_ s); by done_eq Hp.
  - rewrite try_enqueue_eq in Hp. destruct (is_full size_ s); by done_eq Hp.
  - rewrite try_dequeue_eq in Hp. destruct (is_empty size_ s); by done_eq Hp.
  - rewrite queue_try_current_eq in Hp. destruct (is_empty size_ s); by done_eq Hp.
  - rewrite can_peek_eq in Hp. destruct (amnt <? size_); by done_eq Hp.
  - rewrite try_peek_eq in Hp.
    repeat (match type of Hp with context [if ?b then _ else _] => destruct b end);
      by done_eq Hp.
  - by done_eq Hp.
  - by done_eq Hp.
  - by done_eq Hp.
Qed.

Lemma buffer_call_silent (c : call T) r : any_call Buffer c -> notified c r = [].
Proof. intros [Hc|Hc]; by destruct c. Qed.

(** X5: Along any sequence of calls that never park, a cursor is notified
    exactly by the call that advanced it in [RingQueue]: [head_] by a
    [try_enqueue] that returned [true], [tail_] by a [try_dequeue] that
    returned a value, both by [wake_all]; failing calls notify nobody, and no
    call of [RingBuffer] ever notifies, although its [current] waits on
    [head_]. *)
Theorem calls_notify_what_they_advance (cs : list (call T)) :
  forall s rs s' w,
    exec size_ cs s = Done rs s' w ->
    length rs = length cs /\
    w = concat (zip_with notified cs rs) /\
    (Forall (any_call Buffer) cs -> w = []).
Proof.
  induction cs as [|c cs IH]; intros s rs s' w He.
  - cbv [exec ret] in He. by simplify_eq.
  - apply exec_cons in He as (r & rs' & s1 & w1 & w2 & Hp & He & -> & ->).
    destruct (IH _ _ _ _ He) as (Hlen & Hw & Hsilent).
    apply perform_notified in Hp. split_and!.
    + simpl. by rewrite Hlen.
    + simpl. by rewrite Hp, Hw.
    + intros [Hc Hall]%Forall_cons_1.
      by rewrite Hp, (buffer_call_silent c r Hc), (Hsilent Hall).
Qed.
End Notifications.

Lemma calls_notify_what_they_advance_witness :
  let cs : list (call Z) := [TryEnqueue 1; TryDequeue; TryDequeue; WakeAll] in
  length [RBool true; ROpt (Some 1); ROpt None; RVoid] = length cs /\
  [Head; Tail; Head; Tail]
    = concat (zip_with notified cs [RBool true; ROpt (Some 1); ROpt None; RVoid]) /\
  (Forall (any_call Buffer) cs -> [Head; Tail; Head; Tail] = []).
Proof.
  apply (calls_notify_what_they_advance 4 [TryEnqueue 1; TryDequeue; TryDequeue; WakeAll]
           (init 4) _ (Ring [1; 0; 0; 0] 1 1) _).
  reflexivity.
Defined.

(** ** [overwrite] keeps the latest values *)

Section Latest.
Context {T : Type} `{!Inhabited T} (size_ : Z) (Hcap : capacity_ok size_).

Lemma keep_last_cons_ge (n : nat) (x : T) l :
  (n <= length l)%nat -> keep_last n (x :: l) = keep_last n l.
Proof.
  intros Hn. unfold keep_last. simpl length.
  replace (S (length l) - n)%nat with (S (length l - n)) by lia. done.
Qed.

Lemma keep_last_short (n : nat) (l : list T) :
  (length l <= n)%nat -> keep_last n l = l.
Proof.
  intros Hn. unfold keep_last. by replace (length l - n)%nat with 0%nat by lia.
Qed.

Lemma exec_overwrites (vs : list T) :
  forall s, ring_inv size_ s ->
  exists s' w,
    exec size_ (Overwrite <$> vs) s = Done (replicate (length vs) RVoid) s' w /\
    ring_inv size_ s' /\
    contents size_ s' = keep_last (Z.to_nat (size_ - 1)) (contents size_ s ++ vs).
Proof.
  pose proof (size_pos _ Hcap) as HN.
  induction vs as [|v vs IH]; intros s Hi.
  - exists s, []. split_and!; try done. rewrite app_nil_r, keep_last_short; [done|].
    pose proof (contents_length size_ s). destruct Hi as (_ & _ & _ & Hd). lia.
  - pose proof (contents_length size_ s) as Hlen.
    assert (Hstep : exists s1,
      perform size_ (Overwrite v) s = Done RVoid s1 [] /\ ring_inv size_ s1 /\
      keep_last (Z.to_nat (size_ - 1)) (contents size_ s1 ++ vs)
        = keep_last (Z.to_nat (size_ - 1)) (contents size_ s ++ v :: vs)).
    { unfold perform, bind. rewrite overwrite_eq. destruct (is_full size_ s) eqn:Hf.
      - destruct (contents_overwritten _ Hcap s v Hi Hf) as [Hi1 Hc1].
        eexists. split_and!; try done. rewrite Hc1.
        apply (is_full_unread _ Hcap s Hi) in Hf.
        destruct (contents size_ s) as [|x q]; simpl in Hlen; [lia|].
        simpl. rewrite drop_0, <- app_assoc. simpl.
        rewrite keep_last_cons_ge; [done|]. rewrite length_app. simpl. lia.
      - destruct (contents_pushed _ Hcap s v Hi Hf) as [Hi1 Hc1].
        eexists. split_and!; try done. by rewrite Hc1, <- app_assoc. }
    destruct Hstep as (s1 & Hp & Hi1 & Hk).
    destruct (IH s1 Hi1) as (s' & w & He & Hi' & Hc').
    exists s', ([] ++ w). split_and!; try done.
    + rewrite fmap_cons. simpl replicate. by eapply exec_cons_done.
    + by rewrite Hc', Hk.
Qed.

(** X6: [overwrite] never fails: after any number of [overwrite] calls on a
    fresh buffer the unread values are the last [size_ - 1] values passed, in
    order (all of them if fewer were passed), and the buffer is full as soon
    as [size_ - 1] values were passed. *)
Theorem overwrite_keeps_latest (vs : list T) :
  exists s w,
    exec size_ (Overwrite <$> vs) (init size_)
      = Done (replicate (length vs) RVoid) s w /\
    contents size_ s = keep_last (Z.to_nat (size_ - 1)) vs /\
    (size_ - 1 <= Z.of_nat (length vs) -> is_full size_ s = true).
Proof.
  destruct (exec_overwrites vs _ (init_inv _ Hcap)) as (s & w & He & Hi & Hc).
  change (contents size_ (init size_)) with (@nil T) in Hc. simpl in Hc.
  exists s, w. split_and!; try done.
  intros Hlen. apply (is_full_unread _ Hcap s Hi).
  rewrite <- (contents_length size_), Hc. unfold keep_last. rewrite length_drop.
  pose proof (size_pos _ Hcap). lia.
Qed.
End Latest.

Lemma overwrite_keeps_latest_witness :
  let vs : list Z := [1; 2; 3; 4; 5] in
  exists s w,
    exec 4 (Overwrite <$> vs) (init 4) = Done (replicate (length vs) RVoid) s w /\
    contents 4 s = keep_last (Z.to_nat (4 - 1)) vs /\
    (4 - 1 <= Z.of_nat (length vs) -> is_full 4 s = true).
Proof. apply (overwrite_keeps_latest 4 capacity_ok_4 [1; 2; 3; 4; 5]). Defined.

(** ** The parking calls run by one thread alone *)

Section Alone.
Context {T : Type} `{!Inhabited T} (size_ : Z).

Lemma wrap_succ_ne (x : Z) : is_size_t x -> wrap (x + 1) <> x.
Proof.
  unfold is_size_t. intros Hx. destruct (Z.eq_dec x (SIZE_MOD - 1)) as [->|Hne].
  - unfold wrap. replace (SIZE_MOD - 1 + 1) with SIZE_MOD by lia.
    rewrite Z_mod_same_full. rewrite SIZE_MOD_eq. lia.
  - rewrite wrap_small by (unfold is_size_t; lia). lia.
Qed.

(** The steps of [enqueue], [dequeue] and [current]. *)
Lemma enq_test v (s : ring T) :
  producer_step size_ (Enq1 v (head_ s)) s =
    Done (if is_full size_ s then EnqWait v (head_ s) (tail_ s)
          else EnqStore v (head_ s), None) s [].
Proof.
  simpl. unfold bind, load_tail, query, is_full. simpl. by destruct (_ =? _).
Qed.

Lemma enq_wait v lhead ltail (s : ring T) :
  producer_step size_ (EnqWait v lhead ltail) s =
    Done (if tail_ s =? ltail then EnqWait v lhead ltail
          else EnqStore v lhead, None) s [].
Proof.
  simpl. unfold bind, load_tail, query. simpl. by destruct (_ =? _).
Qed.

Lemma deq_load (s : ring T) :
  consumer_step size_ Deq0 s = Done (Deq1 (head_ s), None) s [].
Proof. reflexivity. Qed.

Lemma cur_load (s : ring T) :
  consumer_step size_ Cur0 s = Done (Cur1 (head_ s), None) s [].
Proof. reflexivity. Qed.

Lemma deq_test lhead (s : ring T) :
  consumer_step size_ (Deq1 lhead) s =
    Done (if Z.land lhead (size_mask_ size_) =? Z.land (tail_ s) (size_mask_ size_)
          then DeqWait lhead else DeqRead, None) s [].
Proof.
  simpl. unfold bind, load_tail, query. simpl. by destruct (_ =? _).
Qed.

Lemma deq_wait lhead (s : ring T) :
  consumer_step size_ (DeqWait lhead) s =
    Done (if head_ s =? lhead then DeqWait lhead else DeqRead, None) s [].
Proof.
  simpl. unfold bind, load_head, query. simpl. by destruct (_ =? _).
Qed.

Lemma cur_test lhead (s : ring T) :
  consumer_step size_ (Cur1 lhead) s =
    Done (if Z.land lhead (size_mask_ size_) =? Z.land (tail_ s) (size_mask_ size_)
          then CurWait lhead (tail_ s) else CurRead (tail_ s), None) s [].
Proof.
  simpl. unfold bind, load_tail, query. simpl. by destruct (_ =? _).
Qed.

Lemma cur_wait lhead ltail (s : ring T) :
  consumer_step size_ (CurWait lhead ltail) s =
    Done (if head_ s =? lhead then CurWait lhead ltail else CurRead ltail, None) s [].
Proof.
  simpl. unfold bind, load_head, query. simpl. by destruct (_ =? _).
Qed.

(** A thread whose [wait] sees the value it was given stays where it is,
    whatever the fuel. *)
Lemma produce_parked v lhead (s : ring T) fuel :
  produce size_ fuel (EnqWait v lhead (tail_ s)) s
    = EnqueueInside (EnqWait v lhead (tail_ s)) s.
Proof.
  induction fuel as [|fuel IH]; [done|].
  cbn [produce]. by rewrite enq_wait, Z.eqb_refl.
Qed.

Lemma consume_parked_dequeue (s : ring T) fuel :
  consume size_ fuel (DeqWait (head_ s)) s = Inside (DeqWait (head_ s)) s.
Proof.
  induction fuel as [|fuel IH]; [done|].
  cbn [consume]. by rewrite deq_wait, Z.eqb_refl.
Qed.

Lemma consume_parked_current ltail (s : ring T) fuel :
  consume size_ fuel (CurWait (head_ s) ltail) s = Inside (CurWait (head_ s) ltail) s.
Proof.
  induction fuel as [|fuel IH]; [done|].
  cbn [consume]. by rewrite cur_wait, Z.eqb_refl.
Qed.

Lemma consume_parked_peek amnt ltail (s : ring T) fuel :
  consume size_ fuel (PeekWait amnt ltail (head_ s)) s
    = Inside (PeekWait amnt ltail (head_ s)) s.
Proof.
  induction fuel as [|fuel IH]; [done|].
  cbn [consume]. simpl consumer_step. unfold bind, load_head, query. simpl.
  by rewrite Z.eqb_refl.
Qed.

(** X7: [enqueue] on a queue that is not full returns after five accesses and
    has done what a successful [try_enqueue] does: the value is in the slot
    of the old write cursor, the write cursor is advanced and [head_] is
    notified.  On a full queue it parks in [tail_.wait] with the ring
    untouched and, left alone, never returns. *)
Theorem enqueue_alone (v : T) (s sf : ring T) :
  is_full size_ s = false -> is_full size_ sf = true ->
  (produce size_ 5 (Enq0 v) s = EnqueueReturned (pushed size_ s v) [Head] /\
   RingQueue.try_enqueue size_ v s = Done true (pushed size_ s v) [Head]) /\
  (forall fuel, (2 <= fuel)%nat ->
     produce size_ fuel (Enq0 v) sf
       = EnqueueInside (EnqWait v (head_ sf) (tail_ sf)) sf).
Proof.
  intros Hn Hf. split_and!.
  - cbn [produce]. change (producer_step size_ (Enq0 v) s)
      with (Done (T:=T) (Enq1 v (head_ s), @None (reply T)) s []).
    cbn iota beta. by rewrite enq_test, Hn.
  - by rewrite try_enqueue_eq, Hn.
  - intros [|[|fuel]] Hfuel; try lia.
    cbn [produce]. change (producer_step size_ (Enq0 v) sf)
      with (Done (T:=T) (Enq1 v (head_ sf), @None (reply T)) sf []).
    cbn iota beta. rewrite enq_test, Hf. apply produce_parked.
Qed.

(** X8: [dequeue] on a queue that is not empty returns after five accesses with
    the value in the slot of the read cursor and leaves the ring a successful
    [try_dequeue] leaves.  On an empty queue it parks in [head_.wait] with
    the ring untouched and, left alone, never returns. *)
Theorem dequeue_alone (s se : ring T) :
  is_empty size_ s = false -> is_empty size_ se = true ->
  (consume size_ 5 Deq0 s = Returned (RVal (oldest size_ s)) (popped s) /\
   RingQueue.try_dequeue size_ s = Done (Some (oldest size_ s)) (popped s) [Tail]) /\
  (forall fuel, (2 <= fuel)%nat ->
     consume size_ fuel Deq0 se = Inside (DeqWait (head_ se)) se).
Proof.
  intros Hn He. split_and!.
  - cbn [consume]. rewrite deq_load, deq_test. unfold is_empty in Hn. by rewrite Hn.
  - by rewrite try_dequeue_eq, Hn.
  - intros [|[|fuel]] Hfuel; try lia.
    cbn [consume]. rewrite deq_load, deq_test. unfold is_empty in He. rewrite He.
    apply consume_parked_dequeue.
Qed.

(** X9: [current], of either class, on a ring that is not empty returns after
    three accesses the value [try_current] returns and changes nothing.  On
    an empty ring it parks in [head_.wait] and, left alone, never returns. *)
Theorem current_alone (s se : ring T) :
  is_empty size_ s = false -> is_empty size_ se = true ->
  (consume size_ 3 Cur0 s = Returned (RVal (oldest size_ s)) s /\
   RingBuffer.try_current size_ s = Done (Some (oldest size_ s)) s [] /\
   RingQueue.try_current size_ s = Done (Some (oldest size_ s)) s []) /\
  (forall fuel, (2 <= fuel)%nat ->
     consume size_ fuel Cur0 se = Inside (CurWait (head_ se) (tail_ se)) se).
Proof.
  intros Hn He. split_and!.
  - cbn [consume]. rewrite cur_load, cur_test. unfold is_empty in Hn. by rewrite Hn.
  - by rewrite buffer_try_current_eq, Hn.
  - by rewrite queue_try_current_eq, Hn.
  - intros [|[|fuel]] Hfuel; try lia.
    cbn [consume]. rewrite cur_load, cur_test. unfold is_empty in He. rewrite He.
    apply consume_parked_current.
Qed.
End Alone.

Lemma enqueue_alone_witness :
  let s : ring Z := Ring [1; 2; 0; 0] 2 0 in
  let sf : ring Z := Ring [1; 2; 3; 0] 3 0 in
  (produce 4 5 (Enq0 9) s = EnqueueReturned (pushed 4 s 9) [Head] /\
   RingQueue.try_enqueue 4 9 s = Done true (pushed 4 s 9) [Head]) /\
  (forall fuel, (2 <= fuel)%nat ->
     produce 4 fuel (Enq0 9) sf = EnqueueInside (EnqWait 9 (head_ sf) (tail_ sf)) sf).
Proof.
  apply (enqueue_alone 4 9 (Ring [1; 2; 0; 0] 2 0) (Ring [1; 2; 3; 0] 3 0));
    reflexivity.
Defined.

Lemma dequeue_alone_witness :
  let s : ring Z := Ring [1; 2; 0; 0] 2 0 in
  let se : ring Z := init 4 in
  (consume 4 5 Deq0 s = Returned (RVal (oldest 4 s)) (popped s) /\
   RingQueue.try_dequeue 4 s = Done (Some (oldest 4 s)) (popped s) [Tail]) /\
  (forall fuel, (2 <= fuel)%nat ->
     consume 4 fuel Deq0 se = Inside (DeqWait (head_ se)) se).
Proof.
  apply (dequeue_alone 4 (Ring [1; 2; 0; 0] 2 0) (init 4)); reflexivity.
Defined.

Lemma current_alone_witness :
  let s : ring Z := Ring [1; 2; 0; 0] 2 0 in
  let se : ring Z := init 4 in
  (consume 4 3 Cur0 s = Returned (RVal (oldest 4 s)) s /\
   RingBuffer.try_current 4 s = Done (Some (oldest 4 s)) s [] /\
   RingQueue.try_current 4 s = Done (Some (oldest 4 s)) s []) /\
  (forall fuel, (2 <= fuel)%nat ->
     consume 4 fuel Cur0 se = Inside (CurWait (head_ se) (tail_ se)) se).
Proof.
  apply (current_alone 4 (Ring [1; 2; 0; 0] 2 0) (init 4)); reflexivity.
Defined.

(** ** [peek] alone, and parked calls released by the other thread *)

Section HandOff.
Context {T : Type} `{!Inhabited T} (size_ : Z) (Hcap : capacity_ok size_).

Lemma peek_load_tail amnt (s : ring T) :
  consumer_step size_ (Peek0 amnt) s =
    Done (PeekCan0 amnt (Z.land (tail_ s) (size_mask_ size_)), None) s [].
Proof. reflexivity. Qed.

Lemma peek_read amnt ltail (s : ring T) :
  consumer_step size_ (PeekRead amnt ltail) s =
    Done (CIdle, Some (RVal (slot (buff_ s)
            (Z.land (wrap (ltail + amnt)) (size_mask_ size_))))) s [].
Proof. reflexivity. Qed.

Lemma deq_read (s : ring T) :
  consumer_step size_ DeqRead s = Done (DeqAdd (oldest size_ s), None) s [].
Proof. reflexivity. Qed.

Lemma deq_add val (s : ring T) :
  consumer_step size_ (DeqAdd val) s = Done (DeqNotify val, None) (popped s) [].
Proof. reflexivity. Qed.

Lemma deq_notify val (s : ring T) :
  consumer_step size_ (DeqNotify val) s = Done (CIdle, Some (RVal val)) s [Tail].
Proof. reflexivity. Qed.

(** X10: On a reachable queue and for an offset below the capacity, [peek(amnt)]
    returns after four accesses the value [try_peek(amnt)] returns, the
    unread value [amnt] places after the oldest, when that many are unread,
    and changes nothing; otherwise it parks in [head_.wait] and, left alone,
    never returns. *)
Theorem peek_alone (c : config T) (amnt : Z) :
  reachable size_ Queue c -> 0 <= amnt < size_ ->
  let s := shared c in
  (amnt + 1 <= unread s ->
   exists x, contents size_ s !! Z.to_nat amnt = Some x /\
             consume size_ 4 (Peek0 amnt) s = Returned (RVal x) s /\
             RingQueue.try_peek size_ amnt s = Done (Some x) s []) /\
  (unread s < amnt + 1 ->
   forall fuel, (4 <= fuel)%nat ->
     consume size_ fuel (Peek0 amnt) s
       = Inside (PeekWait amnt (Z.land (tail_ s) (size_mask_ size_)) (head_ s)) s).
Proof.
  intros Hr Ha s. destruct (reachable_inv _ Hcap _ _ Hr) as (Hi & _). fold s in Hi.
  pose proof (peek_distance_unread _ Hcap s Hi) as Hpd. split.
  - intros Hlt. exists (slot (buff_ s) (slot_of size_ s amnt)). split_and!.
    + apply contents_lookup. lia.
    + cbn [consume]. rewrite peek_load_tail, peek_can_peek_head.
      rewrite peek_can_peek_test by lia. rewrite Hpd.
      rewrite (proj2 (Z.ltb_lt amnt (unread s))) by lia.
      by rewrite peek_read, (peek_slot _ Hcap).
    + rewrite (try_peek_inv _ Hcap s amnt Hi) by lia.
      by rewrite bool_decide_eq_true_2 by lia.
  - intros Hge fuel Hfuel. destruct fuel as [|[|[|[|fuel]]]]; try lia.
    cbn [consume]. rewrite peek_load_tail, peek_can_peek_head.
    rewrite peek_can_peek_test by lia. rewrite Hpd.
    rewrite (proj2 (Z.ltb_ge amnt (unread s))) by lia.
    rewrite peek_load_head. apply consume_parked_peek.
Qed.

(** X11: A consumer parked in [dequeue] on an empty reachable queue is released
    by the next [try_enqueue]: once the value is published the parked call
    goes on, returns that very value and leaves the queue empty again. *)
Theorem parked_dequeue_takes_next_value (c : config T) (lhead : Z) (v : T) :
  reachable size_ Queue c -> cons c = DeqWait lhead ->
  is_empty size_ (shared c) = true ->
  let s1 := pushed size_ (shared c) v in
  RingQueue.try_enqueue size_ v (shared c) = Done true s1 [Head] /\
  consume size_ 4 (DeqWait lhead) s1 = Returned (RVal v) (popped s1) /\
  contents size_ (popped s1) = [].
Proof.
  intros Hr Hpc He s1. destruct (reachable_inv _ Hcap _ _ Hr) as (Hi & _ & Hc & _).
  rewrite Hpc in Hc. simpl in Hc. set (s := shared c) in *.
  pose proof (size_pos _ Hcap) as HN.
  pose proof (contents_empty _ Hcap s Hi He) as Hnil.
  pose proof He as Hu. apply (is_empty_unread _ Hcap s Hi) in Hu.
  destruct Hc as [Hc|Hc]; [|lia]. subst lhead.
  assert (Hf : is_full size_ s = false).
  { apply (is_full_false_unread _ Hcap s Hi). lia. }
  destruct (contents_pushed _ Hcap s v Hi Hf) as [Hi1 Hc1]. fold s1 in Hi1, Hc1.
  rewrite Hnil in Hc1. simpl in Hc1.
  assert (He1 : is_empty size_ s1 = false).
  { apply (is_empty_false_unread _ Hcap s1 Hi1).
    rewrite <- (contents_length size_), Hc1. simpl. lia. }
  destruct (contents_nonempty _ Hcap s1 Hi1 He1) as [_ Hc2].
  rewrite Hc1 in Hc2. injection Hc2 as Hv Hrest.
  split_and!; [by rewrite try_enqueue_eq, Hf| |done].
  cbn [consume]. rewrite deq_wait.
  assert (Hne : (head_ s1 =? head_ s) = false).
  { apply Z.eqb_neq. apply wrap_succ_ne. apply Hi. }
  by rewrite Hne, deq_read, deq_add, deq_notify, <- Hv.
Qed.

(** X12: A producer parked in [enqueue] on a full reachable queue is released by
    the next [try_dequeue]: once the read cursor has moved the parked call
    goes on, stores its value behind the values left and notifies [head_]. *)
Theorem parked_enqueue_takes_freed_slot (c : config T) (lhead ltail : Z) (v : T) :
  reachable size_ Queue c -> prod c = EnqWait v lhead ltail ->
  is_full size_ (shared c) = true ->
  let s := shared c in
  RingQueue.try_dequeue size_ s = Done (Some (oldest size_ s)) (popped s) [Tail] /\
  produce size_ 4 (EnqWait v lhead ltail) (popped s)
    = EnqueueReturned (pushed size_ (popped s) v) [Head] /\
  contents size_ (pushed size_ (popped s) v) = drop 1 (contents size_ s) ++ [v].
Proof.
  intros Hr Hpc Hf s. destruct (reachable_inv _ Hcap _ _ Hr) as (Hi & Hp & _).
  rewrite Hpc in Hp. simpl in Hp. fold s in Hi, Hp, Hf.
  pose proof (full_unread_pos _ Hcap s Hi Hf) as Hpos.
  pose proof Hf as Hu. apply (is_full_unread _ Hcap s Hi) in Hu.
  destruct Hp as [-> [Hp|Hp]]; [|lia]. subst ltail.
  assert (He : is_empty size_ s = false).
  { by apply (is_empty_false_unread _ Hcap s Hi). }
  destruct (contents_overwritten _ Hcap s v Hi Hf) as [_ Hc].
  split_and!; [by rewrite try_dequeue_eq, He| |done].
  cbn [produce]. rewrite enq_wait.
  assert (Hne : (tail_ (popped s) =? tail_ s) = false).
  { apply Z.eqb_neq. apply wrap_succ_ne. apply Hi. }
  by rewrite Hne.
Qed.
End HandOff.

(** A producer that called [enqueue(9)] on a full queue of capacity 4 and is
    parked in [tail_.wait(0)]. *)
Lemma reachable_parked_enqueue :
  reachable 4 Queue (Config (Ring [1; 2; 3; 0] 3 0) (EnqWait 9 3 0) CIdle).
Proof.
  set (s := Ring [1; 2; 3; 0] 3 0 : ring Z).
  apply (reachable_step 4 Queue (Config s (Enq1 9 3) CIdle));
    [|by apply (producer_runs 4 Queue (Config s (Enq1 9 3) CIdle)
                  (EnqWait 9 3 0) None s [])].
  apply (reachable_step 4 Queue (Config s (Enq0 9) CIdle));
    [|by apply (producer_runs 4 Queue (Config s (Enq0 9) CIdle) (Enq1 9 3) None s [])].
  apply (reachable_step 4 Queue (Config s PIdle CIdle));
    [apply reachable_three|].
  by apply (producer_enters 4 Queue (Config s PIdle CIdle) 9).
Qed.

Lemma peek_alone_witness :
  let s : ring Z := Ring [1; 2; 3; 0] 3 0 in
  (1 + 1 <= unread s ->
   exists x, contents 4 s !! Z.to_nat 1 = Some x /\
             consume 4 4 (Peek0 1) s = Returned (RVal x) s /\
             RingQueue.try_peek 4 1 s = Done (Some x) s []) /\
  (unread s < 1 + 1 ->
   forall fuel, (4 <= fuel)%nat ->
     consume 4 fuel (Peek0 1) s
       = Inside (PeekWait 1 (Z.land (tail_ s) (size_mask_ 4)) (head_ s)) s).
Proof.
  apply (peek_alone 4 capacity_ok_4
           (Config (Ring [1; 2; 3; 0] 3 0) PIdle CIdle) 1 reachable_three).
  lia.
Defined.

Lemma parked_dequeue_takes_next_value_witness :
  let s1 : ring Z := pushed 4 (init 4) 7 in
  RingQueue.try_enqueue 4 7 (init 4) = Done true s1 [Head] /\
  consume 4 4 (DeqWait 0) s1 = Returned (RVal 7) (popped s1) /\
  contents 4 (popped s1) = [].
Proof.
  apply (parked_dequeue_takes_next_value 4 capacity_ok_4
           (Config (init 4) PIdle (DeqWait 0)) 0 7 reachable_parked_dequeue);
    reflexivity.
Defined.

Lemma parked_enqueue_takes_freed_slot_witness :
  let s : ring Z := Ring [1; 2; 3; 0] 3 0 in
  RingQueue.try_dequeue 4 s = Done (Some (oldest 4 s)) (popped s) [Tail] /\
  produce 4 4 (EnqWait 9 3 0) (popped s) = EnqueueReturned (pushed 4 (popped s) 9) [Head] /\
  contents 4 (pushed 4 (popped s) 9) = drop 1 (contents 4 s) ++ [9].
Proof.
  apply (parked_enqueue_takes_freed_slot 4 capacity_ok_4
           (Config (Ring [1; 2; 3; 0] 3 0) (EnqWait 9 3 0) CIdle) 3 0 9
           reachable_parked_enqueue); reflexivity.
Defined.

(** ** One producer and one consumer on a queue: nothing lost, nothing twice *)

Section QueueHistory.
Context {T : Type} `{!Inhabited T} (size_ : Z) (Hcap : capacity_ok size_).

Lemma head_slot_in_range (s : ring T) :
  ring_inv size_ s ->
  (Z.to_nat (Z.land (head_ s) (size_mask_ size_)) < length (buff_ s))%nat.
Proof.
  intros (Hlen & _). pose proof (mask_range _ Hcap (head_ s)). rewrite Hlen. lia.
Qed.

(** Advancing the write cursor alone publishes what its slot holds. *)
Lemma contents_published (s : ring T) :
  ring_inv size_ s -> unread s < size_ - 1 ->
  contents size_ (Ring (buff_ s) (wrap (head_ s + 1)) (tail_ s))
    = contents size_ s ++ [slot (buff_ s) (Z.land (head_ s) (size_mask_ size_))].
Proof.
  intros Hi Hlt.
  destruct (push_spec _ Hcap s
              (slot (buff_ s) (Z.land (head_ s) (size_mask_ size_))) Hi Hlt)
    as (_ & _ & Hc).
  rewrite <- Hc. unfold pushed, store, slot. f_equal. f_equal. symmetry.
  apply list_insert_id, list_lookup_lookup_total_lt. by apply head_slot_in_range.
Qed.

(** Storing into the slot of the write cursor alone changes no unread value. *)
Lemma contents_stored (s : ring T) v :
  ring_inv size_ s -> unread s < size_ - 1 ->
  let s1 := Ring (store (buff_ s) (Z.land (head_ s) (size_mask_ size_)) v)
                 (head_ s) (tail_ s) in
  ring_inv size_ s1 /\ contents size_ s1 = contents size_ s /\
  slot (buff_ s1) (Z.land (head_ s1) (size_mask_ size_)) = v.
Proof.
  intros Hi Hlt s1.
  assert (Hi1 : ring_inv size_ s1).
  { unfold ring_inv, s1, store in *; simpl. rewrite length_insert. done. }
  destruct (push_spec _ Hcap s v Hi Hlt) as (_ & _ & Hc).
  pose proof (contents_published s1 Hi1 Hlt) as Hp.
  change (Ring (buff_ s1) (wrap (head_ s1 + 1)) (tail_ s1)) with (pushed size_ s v) in Hp.
  rewrite Hc in Hp. apply app_inj_tail in Hp as [Hc1 Hv]. done.
Qed.

Lemma producer_call_effect (call : call T) s r s' w :
  producer_call Queue call -> perform size_ call s = Done r s' w ->
  ring_inv size_ s ->
  tail_ s' = tail_ s /\ contents size_ s' = contents size_ s ++ call_puts call r.
Proof.
  intros Hc Hp Hi. destruct call; try done; unfold perform, bind in Hp.
  - rewrite try_enqueue_eq in Hp. destruct (is_full size_ s) eqn:Hf.
    + assert (s' = s /\ r = RBool false) as [-> ->] by (by done_eq Hp).
      simpl. by rewrite app_nil_r.
    + assert (s' = pushed size_ s v /\ r = RBool true) as [-> ->] by (by done_eq Hp).
      destruct (contents_pushed _ Hcap s v Hi Hf) as [_ Hc1]. by rewrite Hc1.
  - assert (s' = s /\ r = RVoid) as [-> ->] by (by done_eq Hp).
    simpl. by rewrite app_nil_r.
  - assert (s' = s) as -> by (by done_eq Hp).
    simpl. by rewrite app_nil_r.
  - assert (s' = s) as -> by (by done_eq Hp).
    simpl. by rewrite app_nil_r.
Qed.

Lemma consumer_call_effect (call : call T) s r s' w :
  consumer_call Queue call -> perform size_ call s = Done r s' w ->
  ring_inv size_ s ->
  head_ s' = head_ s /\ buff_ s' = buff_ s /\
  contents size_ s = call_gets call r ++ contents size_ s'.
Proof.
  intros Hc Hp Hi.
  assert (Hsame : s' = s -> call_gets call r = [] ->
    head_ s' = head_ s /\ buff_ s' = buff_ s /\
    contents size_ s = call_gets call r ++ contents size_ s').
  { by intros -> ->. }
  destruct call; try done; unfold perform, bind in Hp.
  - rewrite try_dequeue_eq in Hp. destruct (is_empty size_ s) eqn:He.
    + assert (s' = s /\ r = ROpt None) as [-> ->] by (by done_eq Hp). done.
    + assert (s' = popped s /\ r = ROpt (Some (oldest size_ s))) as [-> ->]
        by (by done_eq Hp).
      destruct (contents_nonempty _ Hcap s Hi He) as [_ Hc1]. by rewrite Hc1.
  - rewrite queue_try_current_eq in Hp.
    destruct (is_empty size_ s); apply Hsame; by done_eq Hp.
  - rewrite can_peek_eq in Hp. destruct (amnt <? size_); apply Hsame; by done_eq Hp.
  - rewrite try_peek_eq in Hp.
    repeat (match type of Hp with context [if ?b then _ else _] => destruct b end);
      apply Hsame; by done_eq Hp.
  - apply Hsame; by done_eq Hp.
  - apply Hsame; by done_eq Hp.
  - apply Hsame; by done_eq Hp.
Qed.

Lemma producer_step_effect (p p' : producer T) o s s' w :
  producer_inv size_ p s -> ring_inv size_ s ->
  producer_step size_ p s = Done (p', o) s' w ->
  tail_ s' = tail_ s /\
  (exists extra, contents size_ s' = contents size_ s ++ extra) /\
  contents size_ s ++ on_the_way size_ p s
    = contents size_ s' ++ on_the_way size_ p' s'.
Proof.
  intros Hp Hi Hs.
  assert (Hsame : s' = s -> on_the_way size_ p' s = on_the_way size_ p s ->
    tail_ s' = tail_ s /\
    (exists extra, contents size_ s' = contents size_ s ++ extra) /\
    contents size_ s ++ on_the_way size_ p s
      = contents size_ s' ++ on_the_way size_ p' s').
  { intros -> ->. split_and!; try done. exists []. by rewrite app_nil_r. }
  destruct p; simpl in Hs; unfold bind, load_head, load_tail, query in Hs;
    simpl in Hs.
  - apply Hsame; by done_eq Hs.
  - apply Hsame; by done_eq Hs.
  - destruct (_ =? _); apply Hsame; by done_eq Hs.
  - destruct (_ =? _); apply Hsame; by done_eq Hs.
  - destruct Hp as [-> Hp].
    destruct (contents_stored s v Hi Hp) as (_ & Hc1 & Hv).
    assert (s' = Ring (store (buff_ s) (Z.land (head_ s) (size_mask_ size_)) v)
                      (head_ s) (tail_ s) /\ p' = EnqAdd) as [-> ->]
      by (by done_eq Hs).
    split_and!; try done.
    + exists []. by rewrite app_nil_r.
    + cbn [on_the_way]. by rewrite Hc1, Hv.
  - simpl in Hp. pose proof (contents_published s Hi Hp) as Hc1.
    assert (s' = Ring (buff_ s) (wrap (head_ s + 1)) (tail_ s) /\ p' = EnqNotify)
      as [-> ->] by (by done_eq Hs).
    split_and!; try done.
    + by eexists.
    + cbn [on_the_way]. by rewrite Hc1, app_nil_r.
  - apply Hsame; by done_eq Hs.
Qed.

Lemma consumer_step_effect (c c' : consumer T) o s s' w :
  consumer_inv size_ c s -> consumer_owns size_ c s -> ring_inv size_ s ->
  consumer_step size_ c s = Done (c', o) s' w ->
  head_ s' = head_ s /\ buff_ s' = buff_ s /\
  in_hand c ++ contents size_ s
    = return_gets c o ++ in_hand c' ++ contents size_ s' /\
  consumer_owns size_ c' s'.
Proof.
  intros Hc Ho Hi Hs.
  assert (Hsame : s' = s -> in_hand c = [] -> in_hand c' = [] ->
    return_gets c o = [] -> consumer_owns size_ c' s ->
    head_ s' = head_ s /\ buff_ s' = buff_ s /\
    in_hand c ++ contents size_ s
      = return_gets c o ++ in_hand c' ++ contents size_ s' /\
    consumer_owns size_ c' s').
  { by intros -> -> -> -> ?. }
  destruct c; simpl in Hs;
    unfold bind, load_head, load_tail, read_slot, query, assert in Hs; simpl in Hs;
    try (apply Hsame; by done_eq Hs);
    try (destruct (_ =? _); apply Hsame; by done_eq Hs).
  - (* dequeue: read the slot *)
    assert (s' = s /\ c' = DeqAdd (oldest size_ s) /\ o = None) as (-> & -> & ->)
      by (by done_eq Hs).
    apply Hsame; try done. simpl in Hc.
    apply (is_empty_false_unread _ Hcap s Hi) in Hc.
    destruct (contents_nonempty _ Hcap s Hi Hc) as [_ Hc1]. by eexists.
  - (* dequeue: advance tail_ *)
    assert (s' = popped s /\ c' = DeqNotify val /\ o = None) as (-> & -> & ->)
      by (by done_eq Hs).
    simpl in Hc, Ho. destruct Ho as [rest Hrest].
    apply (is_empty_false_unread _ Hcap s Hi) in Hc.
    destruct (contents_nonempty _ Hcap s Hi Hc) as [_ Hc1].
    rewrite Hrest in Hc1. injection Hc1 as _ ->.
    split_and!; try done; by rewrite Hrest.
  - (* dequeue: return *)
    assert (s' = s /\ c' = CIdle /\ o = Some (RVal val)) as (-> & -> & ->)
      by (by done_eq Hs).
    done.
  - (* can_peek: assert and test *)
    destruct (amnt <? size_); [|done]. simpl in Hs.
    destruct (amnt <? _); apply Hsame; by done_eq Hs.
Qed.

Lemma consumer_owns_stable (c : consumer T) s s' :
  consumer_owns size_ c s -> tail_ s' = tail_ s ->
  (exists extra, contents size_ s' = contents size_ s ++ extra) ->
  consumer_owns size_ c s'.
Proof.
  intros Ho Ht [extra Hc]. destruct c; simpl in *; try done; try congruence.
  destruct Ho as [rest Hrest]. exists (rest ++ extra). by rewrite Hc, Hrest.
Qed.

Lemma on_the_way_stable (p : producer T) s s' :
  head_ s' = head_ s -> buff_ s' = buff_ s ->
  on_the_way size_ p s' = on_the_way size_ p s.
Proof. intros Hh Hb. destruct p; simpl; try done. by rewrite Hh, Hb. Qed.

Lemma queue_run_reachable (t : traced T) :
  queue_run size_ t -> reachable size_ Queue (now t).
Proof.
  induction 1 as [|t call r s' w _ IH Hidle Hcall Hp
                  |t v _ IH Hidle
                  |t p' o s' w _ IH Hrun Hs
                  |t call r s' w _ IH Hidle Hcall Hp
                  |t e _ IH Hidle He
                  |t c' o s' w _ IH Hrun Hs]; simpl.
  - apply reachable_init.
  - apply (reachable_step _ _ (now t)); [done|]. by eapply producer_calls.
  - apply (reachable_step _ _ (now t)); [done|]. by apply producer_enters.
  - apply (reachable_step _ _ (now t)); [done|]. by eapply producer_runs.
  - apply (reachable_step _ _ (now t)); [done|]. by eapply consumer_calls.
  - apply (reachable_step _ _ (now t)); [done|]. by apply consumer_enters.
  - apply (reachable_step _ _ (now t)); [done|]. by eapply consumer_runs.
Qed.

Lemma reachable_queue_run (c : config T) :
  reachable size_ Queue c -> exists e l, queue_run size_ (Traced c e l).
Proof.
  induction 1 as [|c c' _ (e & l & IH) Hstep].
  - exists [], []. apply run_init.
  - destruct Hstep as [c call r s' w Hidle Hcall Hperf
                      |c v _ Hidle
                      |c p' o s' w Hrun Hs
                      |c call r s' w Hidle Hcall Hperf
                      |c e' Hidle He
                      |c c' o s' w Hrun Hs].
    + eexists _, _. by apply (run_producer_calls size_ (Traced c e l) call r s' w).
    + eexists _, _. by apply (run_producer_enters size_ (Traced c e l) v).
    + eexists _, _. by apply (run_producer_runs size_ (Traced c e l) p' o s' w).
    + eexists _, _. by apply (run_consumer_calls size_ (Traced c e l) call r s' w).
    + eexists _, _. by apply (run_consumer_enters size_ (Traced c e l) e').
    + eexists _, _. by apply (run_consumer_runs size_ (Traced c e l) c' o s' w).
Qed.

Lemma queue_run_inv (t : traced T) :
  queue_run size_ t ->
  consumer_owns size_ (cons (now t)) (shared (now t)) /\
  put t = got t ++ in_hand (cons (now t)) ++ contents size_ (shared (now t))
            ++ on_the_way size_ (prod (now t)) (shared (now t)).
Proof.
  induction 1 as [|t call r s' w Hrun [IHo IHh] Hidle Hcall Hp
                  |t v Hrun [IHo IHh] Hidle
                  |t p' o s' w Hrun [IHo IHh] Hnidle Hs
                  |t call r s' w Hrun [IHo IHh] Hidle Hcall Hp
                  |t e Hrun [IHo IHh] Hidle He
                  |t c' o s' w Hrun [IHo IHh] Hnidle Hs]; simpl.
  - done.
  - destruct (reachable_inv _ Hcap _ _ (queue_run_reachable t Hrun)) as (Hi & _).
    destruct (producer_call_effect call _ _ _ _ Hcall Hp Hi) as [Ht Hc].
    split; [eapply consumer_owns_stable; eauto|].
    rewrite IHh, Hidle, Hc. simpl. by rewrite !app_nil_r, <- !app_assoc.
  - split; [done|]. rewrite IHh, Hidle. simpl. by rewrite !app_nil_r, <- !app_assoc.
  - destruct (reachable_inv _ Hcap _ _ (queue_run_reachable t Hrun))
      as (Hi & Hpi & _).
    destruct (producer_step_effect _ _ _ _ _ _ Hpi Hi Hs) as (Ht & Hex & Hc).
    split; [eapply consumer_owns_stable; eauto|]. by rewrite IHh, Hc.
  - destruct (reachable_inv _ Hcap _ _ (queue_run_reachable t Hrun)) as (Hi & _).
    destruct (consumer_call_effect call _ _ _ _ Hcall Hp Hi) as (Hh & Hb & Hc).
    split; [done|]. rewrite IHh, Hidle, Hc, (on_the_way_stable _ _ _ Hh Hb).
    simpl. by rewrite <- !app_assoc.
  - split; [by destruct e|]. rewrite IHh, Hidle. by destruct e.
  - destruct (reachable_inv _ Hcap _ _ (queue_run_reachable t Hrun))
      as (Hi & _ & Hci & _).
    destruct (consumer_step_effect _ _ _ _ _ _ Hci IHo Hi Hs) as (Hh & Hb & Hc & Ho').
    split; [done|]. rewrite IHh, (on_the_way_stable _ _ _ Hh Hb).
    rewrite (app_assoc (in_hand _)), Hc. by rewrite <- !app_assoc.
Qed.

(** X13: Under every interleaving of one producer and one consumer thread on a
    [RingQueue], with parking calls proceeding one access at a time: the
    values passed to [enqueue] or accepted by [try_enqueue] are, in order,
    the values [dequeue] and [try_dequeue] have returned, then the value a
    [dequeue] has taken and not yet returned, then the unread values, then
    the value an [enqueue] has not yet published.  No value is lost,
    returned twice or returned out of order; every reachable configuration
    has such a history. *)
Theorem spsc_queue_is_fifo (c : config T) :
  reachable size_ Queue c ->
  (exists e l, queue_run size_ (Traced c e l)) /\
  forall e l, queue_run size_ (Traced c e l) ->
    e = l ++ in_hand (cons c) ++ contents size_ (shared c)
          ++ on_the_way size_ (prod c) (shared c).
Proof.
  intros Hr. split; [by apply reachable_queue_run|].
  intros e l Hrun. by destruct (queue_run_inv _ Hrun) as [_ Hh].
Qed.

(** X14: Under every such interleaving, when the [current] or the [peek] of a
    [RingQueue] comes to read the array it returns what is then the oldest
    unread value, or the unread value at its offset, and changes nothing:
    the values read before parking are still the right ones. *)
Theorem queue_current_and_peek_are_fresh (c : config T) :
  reachable size_ Queue c ->
  let s := shared c in
  (forall lt, cons c = CurRead lt ->
     exists x, consumer_step size_ (CurRead lt) s = Done (CIdle, Some (RVal x)) s [] /\
               contents size_ s !! 0%nat = Some x) /\
  (forall a lt, cons c = PeekRead a lt ->
     exists x, consumer_step size_ (PeekRead a lt) s = Done (CIdle, Some (RVal x)) s [] /\
               contents size_ s !! Z.to_nat a = Some x).
Proof.
  intros Hr s. destruct (reachable_inv _ Hcap _ _ Hr) as (Hi & _ & Hc & _).
  destruct (reachable_queue_run c Hr) as (e & l & Hrun).
  destruct (queue_run_inv _ Hrun) as [Ho _]. simpl in Ho. fold s in Hi, Hc, Ho.
  split.
  - intros lt Hpc. rewrite Hpc in Hc, Ho. simpl in Hc, Ho. subst lt.
    eexists. split; [reflexivity|].
    rewrite (contents_lookup size_ s 0) by lia. do 2 f_equal.
    rewrite (slot_of_mod _ Hcap), (mask_mod _ Hcap). f_equal. lia.
  - intros a lt Hpc. rewrite Hpc in Hc, Ho. simpl in Hc, Ho. subst lt.
    eexists. split; [reflexivity|].
    rewrite (contents_lookup size_ s a) by lia. do 2 f_equal.
    symmetry. by apply peek_slot.
Qed.
End QueueHistory.

Lemma spsc_queue_is_fifo_witness :
  let c : config Z := Config (Ring [1; 2; 3; 0] 3 0) (EnqWait 9 3 0) CIdle in
  (exists e l, queue_run 4 (Traced c e l)) /\
  forall e l, queue_run 4 (Traced c e l) ->
    e = l ++ in_hand (cons c) ++ contents 4 (shared c)
          ++ on_the_way 4 (prod c) (shared c).
Proof.
  apply (spsc_queue_is_fifo 4 capacity_ok_4
           (Config (Ring [1; 2; 3; 0] 3 0) (EnqWait 9 3 0) CIdle)
           reachable_parked_enqueue).
Defined.

(** A consumer that called [peek(1)] on a queue of capacity 4 holding 1, 2, 3
    and is about to read the array. *)
Lemma reachable_peek_read :
  reachable 4 Queue (Config (Ring [1; 2; 3; 0] 3 0) PIdle (PeekRead 1 0)).
Proof.
  set (s := Ring [1; 2; 3; 0] 3 0 : ring Z).
  apply (reachable_step 4 Queue (Config s PIdle (PeekCan1 1 0 3)));
    [|by apply (consumer_runs 4 Queue (Config s PIdle (PeekCan1 1 0 3))
                  (PeekRead 1 0) None s [])].
  apply (reachable_step 4 Queue (Config s PIdle (PeekCan0 1 0)));
    [|by apply (consumer_runs 4 Queue (Config s PIdle (PeekCan0 1 0))
                  (PeekCan1 1 0 3) None s [])].
  apply (reachable_step 4 Queue (Config s PIdle (Peek0 1)));
    [|by apply (consumer_runs 4 Queue (Config s PIdle (Peek0 1))
                  (PeekCan0 1 0) None s [])].
  apply (reachable_step 4 Queue (Config s PIdle CIdle)); [apply reachable_three|].
  by apply (consumer_enters 4 Queue (Config s PIdle CIdle) (Peek0 1)).
Qed.

Lemma queue_current_and_peek_are_fresh_witness :
  let s : ring Z := Ring [1; 2; 3; 0] 3 0 in
  let c : config Z := Config s PIdle (PeekRead 1 0) in
  (forall lt, cons c = CurRead lt ->
     exists x, consumer_step 4 (CurRead lt) s = Done (CIdle, Some (RVal x)) s [] /\
               contents 4 s !! 0%nat = Some x) /\
  (forall a lt, cons c = PeekRead a lt ->
     exists x, consumer_step 4 (PeekRead a lt) s = Done (CIdle, Some (RVal x)) s [] /\
               contents 4 s !! Z.to_nat a = Some x).
Proof.
  apply (queue_current_and_peek_are_fresh 4 capacity_ok_4
           (Config (Ring [1; 2; 3; 0] 3 0) PIdle (PeekRead 1 0)) reachable_peek_read).
Defined.

(** ** The wait of [peek] *)

Section PeekWait.
Context {T : Type} `{!Inhabited T} (size_ : Z) (Hcap : capacity_ok size_).

(** X15: [peek] loads [head_] afresh for its [wait].  When the values it waits
    for arrive after its [can_peek] answered no and before that load, the
    call parks on the new value of [head_]: left alone it never returns,
    although [try_peek] at the same offset returns the value. *)
Theorem peek_parks_past_its_values (c : config T) (a lt : Z) :
  reachable size_ Queue c -> cons c = PeekLoad a lt ->
  a + 1 <= unread (shared c) ->
  let s := shared c in
  (forall fuel, (1 <= fuel)%nat ->
     consume size_ fuel (PeekLoad a lt) s = Inside (PeekWait a lt (head_ s)) s) /\
  consumer_parked (PeekWait a lt (head_ s)) s = true /\
  exists x, contents size_ s !! Z.to_nat a = Some x /\
            RingQueue.try_peek size_ a s = Done (Some x) s [].
Proof.
  intros Hr Hpc Hlt s. destruct (reachable_inv _ Hcap _ _ Hr) as (Hi & _ & Hc & _).
  rewrite Hpc in Hc. simpl in Hc. fold s in Hi, Hlt.
  split_and!.
  - intros [|fuel] Hfuel; [lia|]. cbn [consume].
    rewrite peek_load_head. apply consume_parked_peek.
  - simpl. apply Z.eqb_refl.
  - exists (slot (buff_ s) (slot_of size_ s a)). split.
    + apply contents_lookup. lia.
    + rewrite (try_peek_inv _ Hcap s a Hi) by lia.
      by rewrite bool_decide_eq_true_2 by lia.
Qed.
End PeekWait.

(** A consumer in [peek(1)] on a queue of capacity 4 that found nothing to
    peek at, after which the producer enqueued 1 and 2. *)
Lemma reachable_peek_load :
  reachable 4 Queue (Config (Ring [1; 2; 0; 0] 2 0) PIdle (PeekLoad 1 0)).
Proof.
  set (s0 := init 4 : ring Z).
  set (s1 := Ring [1; 0; 0; 0] 1 0 : ring Z).
  set (s2 := Ring [1; 2; 0; 0] 2 0 : ring Z).
  apply (reachable_step 4 Queue (Config s1 PIdle (PeekLoad 1 0)));
    [|by apply (producer_calls 4 Queue (Config s1 PIdle (PeekLoad 1 0))
                  (TryEnqueue 2) (RBool true) s2 [Head])].
  apply (reachable_step 4 Queue (Config s0 PIdle (PeekLoad 1 0)));
    [|by apply (producer_calls 4 Queue (Config s0 PIdle (PeekLoad 1 0))
                  (TryEnqueue 1) (RBool true) s1 [Head])].
  apply (reachable_step 4 Queue (Config s0 PIdle (PeekCan1 1 0 0)));
    [|by apply (consumer_runs 4 Queue (Config s0 PIdle (PeekCan1 1 0 0))
                  (PeekLoad 1 0) None s0 [])].
  apply (reachable_step 4 Queue (Config s0 PIdle (PeekCan0 1 0)));
    [|by apply (consumer_runs 4 Queue (Config s0 PIdle (PeekCan0 1 0))
                  (PeekCan1 1 0 0) None s0 [])].
  apply (reachable_step 4 Queue (Config s0 PIdle (Peek0 1)));
    [|by apply (consumer_runs 4 Queue (Config s0 PIdle (Peek0 1))
                  (PeekCan0 1 0) None s0 [])].
  apply (reachable_step 4 Queue (Config s0 PIdle CIdle));
    [apply reachable_init|].
  by apply (consumer_enters 4 Queue (Config s0 PIdle CIdle) (Peek0 1)).
Qed.

Lemma peek_parks_past_its_values_witness :
  let s : ring Z := Ring [1; 2; 0; 0] 2 0 in
  (forall fuel, (1 <= fuel)%nat ->
     consume 4 fuel (PeekLoad 1 0) s = Inside (PeekWait 1 0 (head_ s)) s) /\
  consumer_parked (PeekWait 1 0 (head_ s)) s = true /\
  exists x, contents 4 s !! Z.to_nat 1 = Some x /\
            RingQueue.try_peek 4 1 s = Done (Some x) s [].
Proof.
  apply (peek_parks_past_its_values 4 capacity_ok_4
           (Config (Ring [1; 2; 0; 0] 2 0) PIdle (PeekLoad 1 0)) 1 0
           reachable_peek_load); [reflexivity|].
  vm_compute. discriminate.
Defined.

(** ** The discipline of the parking calls *)

Section Discipline.
Context {T : Type} `{!Inhabited T} (size_ : Z) (Hcap : capacity_ok size_).















End Discipline.

